(** * Coliving revenue and financing engine: a shallow embedding

    The Python sources compute with [float]; the properties below are the
    ones of the underlying exact arithmetic, so a [float] is embedded as a
    rational number of [Q] and [==] ([Qeq]) is numeric equality.  Where
    rounding decides whether a call returns or raises, as in the payment of
    the amortization schedule, the code is embedded a second time over the
    binary64 numbers of [PrimFloat].  Integers
    ([count], [days], [years], loop counters) are [Z] or [nat].  Dictionaries
    that are only looked up or rebuilt key by key are [gmap string _];
    dictionaries whose iteration order the code relies on are lists of
    items. *)

From Stdlib Require Import QArith Qabs Qpower Qminmax Qfield Lqa Lia ZArith List.
From Stdlib Require Import Floats.
From stdpp Require Import gmap strings fin_maps.

Local Open Scope Q_scope.

(** ** Comparisons and the two-argument [min] / [max] of Python *)

Definition Qleb (x y : Q) : bool := Qle_bool x y.
Definition Qltb (x y : Q) : bool := negb (Qle_bool y x).

(** [bool(x)] on a number: false exactly for zero. *)
Definition truthy (x : Q) : bool := negb (Qeq_bool x 0).

(** [max(a, b)] keeps [a] unless [b > a]; [min(a, b)] keeps [a] unless
    [b < a]. *)
Definition py_max (a b : Q) : Q := if Qltb a b then b else a.
Definition py_min (a b : Q) : Q := if Qltb b a then b else a.

(** ** Data model *)

Record RoomType := mkRoomType {
  rt_name : string;
  rt_count : Z
}.

Record SeasonPricing := mkSeasonPricing {
  price_per_night : Q;
  price_per_week : Q;
  price_per_month : Q;
  share_nightly : Q;
  share_weekly : Q;
  share_monthly : Q
}.

Record Season := mkSeason {
  season_name : string;
  days : Z;
  occupancy : gmap string Q;
  pricing : gmap string SeasonPricing
}.

(** ** PricingModel *)

Definition equivalent_nightly_rate (self : SeasonPricing) : Q :=
  let total_share :=
    share_nightly self + share_weekly self + share_monthly self in
  if Qleb total_share 0 then 0
  else
    let sn := share_nightly self / total_share in
    let sw := share_weekly self / total_share in
    let sm := share_monthly self / total_share in
    let nightly_part := sn * price_per_night self in
    let weekly_part :=
      sw * (if truthy (price_per_week self)
            then price_per_week self / 7 else 0) in
    let monthly_part :=
      sm * (if truthy (price_per_month self)
            then price_per_month self / 30 else 0) in
    nightly_part + weekly_part + monthly_part.

(** ** Exceptions

    A call either returns a value or raises.  The three exceptions the
    modelled functions could raise are kept apart. *)

Inductive py_error := ZeroDivisionError | UnboundLocalError | IndexError.

Inductive outcome (A : Type) :=
| Returned (a : A)
| Raised (e : py_error).
Arguments Returned {A} a.
Arguments Raised {A} e.

Definition obind {A B} (m : outcome A) (k : A -> outcome B) : outcome B :=
  match m with
  | Returned a => k a
  | Raised e => Raised e
  end.

Notation "'let!' x ':=' m 'in' k" := (obind m (fun x => k))
  (at level 10, x name, m at level 100, k at level 200).

(** [x / y] on floats raises on a zero divisor. *)
Definition py_div (x y : Q) : outcome Q :=
  if Qeq_bool y 0 then Raised ZeroDivisionError else Returned (x / y).

(** [x ** z] with an integer exponent raises on [0 ** negative]. *)
Definition py_pow (x : Q) (z : Z) : outcome Q :=
  if Qeq_bool x 0 && (z <? 0)%Z then Raised ZeroDivisionError
  else Returned (x ^ z).

(** ** RevenueAggregator *)

(** A [dict] whose insertion order is observable, as its list of items:
    assigning to a present key replaces the value in place, assigning to a
    new key appends. *)
Definition odict (V : Type) := list (string * V).

Fixpoint od_get {V} (d : odict V) (k : string) : option V :=
  match d with
  | [] => None
  | (k', v) :: rest => if String.eqb k' k then Some v else od_get rest k
  end.

Fixpoint od_set {V} (d : odict V) (k : string) (v : V) : odict V :=
  match d with
  | [] => [(k, v)]
  | (k', v') :: rest =>
      if String.eqb k' k then (k', v) :: rest
      else (k', v') :: od_set rest k v
  end.

Record RoomBreakdown := mkRoomBreakdown {
  rb_equivalent_nightly_rate : Q;
  rb_occupancy_rate : Q;
  rb_total_room_nights : Z;
  rb_occupied_nights : Q;
  rb_revenue : Q
}.

Record SeasonResult := mkSeasonResult {
  sr_revenue : Q;
  by_room_type : odict RoomBreakdown
}.

Record Results := mkResults {
  per_season : odict SeasonResult;
  total_revenue : Q
}.

(** One turn of the loop over [room_types.items()]; the state is
    [(season_revenue, room_breakdown)]. *)
Definition room_step (season : Season)
    (st : Q * odict RoomBreakdown) (item : string * RoomType)
    : Q * odict RoomBreakdown :=
  let '(season_revenue, room_breakdown) := st in
  let '(rt_name, room_type) := item in
  let occ_rate := default 0 (occupancy season !! rt_name) in
  match pricing season !! rt_name with
  | None => (season_revenue, room_breakdown)
  | Some pricing =>
      let rate := equivalent_nightly_rate pricing in
      let total_room_nights := (rt_count room_type * days season)%Z in
      let occupied_nights := inject_Z total_room_nights * occ_rate in
      let revenue := occupied_nights * rate in
      (season_revenue + revenue,
       od_set room_breakdown rt_name
         (mkRoomBreakdown rate occ_rate total_room_nights
            occupied_nights revenue))
  end.

Definition season_result (room_types : odict RoomType) (season : Season)
    : SeasonResult :=
  let '(season_revenue, room_breakdown) :=
    fold_left (room_step season) room_types (0, []) in
  mkSeasonResult season_revenue room_breakdown.

Definition season_step (room_types : odict RoomType)
    (results : Results) (season : Season) : Results :=
  let sr := season_result room_types season in
  mkResults (od_set (per_season results) (season_name season) sr)
            (total_revenue results + sr_revenue sr).

Definition simulate_annual_revenue (room_types : odict RoomType)
    (seasons : list Season) : Results :=
  fold_left (season_step room_types) seasons (mkResults [] 0).

(** ** IRRSolver *)

(** [sum(cf / ((1 + mid) ** t) for t, cf in enumerate(cashflows))], with
    the running total [acc] and the running index [t]. *)
Fixpoint npv_from (mid : Q) (t : Z) (cashflows : list Q) (acc : Q)
    : outcome Q :=
  match cashflows with
  | [] => Returned acc
  | cf :: rest =>
      let! p := py_pow (1 + mid) t in
      let! x := py_div cf p in
      npv_from mid (t + 1) rest (acc + x)
  end.

Definition npv (cashflows : list Q) (mid : Q) : outcome Q :=
  npv_from mid 0 cashflows 0.

(** The [for _ in range(max_iter)] loop.  [mid] is the local variable
    [mid]: unbound before the first turn. *)
Fixpoint bisection (cashflows : list Q) (tol : Q) (iters : nat)
    (low high : Q) (mid : option Q) : outcome (option Q) :=
  match iters with
  | O =>
      match mid with
      | Some m => Returned (Some m)
      | None => Raised UnboundLocalError
      end
  | S iters' =>
      let mid := (low + high) / 2 in
      let! v := npv cashflows mid in
      if Qltb (Qabs v) tol then Returned (Some mid)
      else if Qltb 0 v then bisection cashflows tol iters' mid high (Some mid)
      else bisection cashflows tol iters' low mid (Some mid)
  end.

Definition irr_low : Q := -0.9.
Definition irr_high : Q := 1.0.
Definition default_tol : Q := 1 # 1000000.
Definition default_max_iter : nat := 1000.

Definition compute_irr (cashflows : list Q) (tol : Q) (max_iter : nat)
    : outcome (option Q) :=
  if forallb (fun cf => Qleb 0 cf) cashflows
     || forallb (fun cf => Qleb cf 0) cashflows
  then Returned None
  else bisection cashflows tol max_iter irr_low irr_high None.

(** ** AmortizationScheduler *)

Record AmortizationRow := mkAmortizationRow {
  year : Z;
  payment : Q;
  interest : Q;
  principal : Q;
  remaining : Q
}.

(** The [for year in range(1, n + 1)] loop: [count] turns are left, the
    next one is numbered [yr] and starts from the balance [rem]. *)
Fixpoint amortize (annual_payment r : Q) (count : nat) (yr : Z) (rem : Q)
    : list AmortizationRow :=
  match count with
  | O => []
  | S count' =>
      let interest := rem * r in
      let principal := annual_payment - interest in
      let rem' := py_max 0 (rem - principal) in
      mkAmortizationRow yr annual_payment interest principal rem'
      :: amortize annual_payment r count' (yr + 1) rem'
  end.

(** The value bound to [annual_payment]: [debt_amount / n] at a zero rate,
    [debt_amount * (r / (1 - (1 + r) ** -n))] otherwise. *)
Definition annual_payment_of (debt_amount r : Q) (n : Z) : outcome Q :=
  if Qeq_bool r 0 then py_div debt_amount (inject_Z n)
  else
    let! p := py_pow (1 + r) (- n) in
    let! f := py_div r (1 - p) in
    Returned (debt_amount * f).

Definition build_amortization_schedule (debt_amount annual_rate : Q)
    (years : Z) : outcome (list AmortizationRow) :=
  if Qleb debt_amount 0 || Qltb annual_rate 0 || (years <=? 0)%Z
  then Returned []
  else
    let r := annual_rate in
    let n := years in (* [int(years)]: [years] is an [int] already *)
    let! annual_payment := annual_payment_of debt_amount r n in
    Returned (amortize annual_payment r (Z.to_nat n) 1 debt_amount).

(** ** AmortizationScheduler in binary64 arithmetic

    The same function over the IEEE 754 binary64 numbers that Python's
    [float] are.  Sums, differences, products and quotients are the
    correctly rounded operations of [PrimFloat]; [libm_pow] stands for the
    [pow] of the C library, which CPython calls for [x ** y] once it has
    dealt itself with the cases below. *)

Record FloatRow := mkFloatRow {
  f_year : Z;
  f_payment : float;
  f_interest : float;
  f_principal : float;
  f_remaining : float
}.

(** [float(n)] for an [int]: exact below 2^53 in magnitude. *)
Definition float_of_int (n : Z) : float :=
  match n with
  | Z0 => 0%float
  | Zpos _ => PrimFloat.of_uint63 (Uint63.of_Z n)
  | Zneg p => (- PrimFloat.of_uint63 (Uint63.of_Z (Zpos p)))%float
  end.

(** [x / y]: a zero divisor, of either sign, raises. *)
Definition float_div (x y : float) : outcome float :=
  if (y =? 0)%float then Raised ZeroDivisionError
  else Returned (x / y)%float.

(** [max(0.0, x)] keeps [0.0] unless [x > 0.0]. *)
Definition float_max0 (x : float) : float :=
  if (0 <? x)%float then x else 0%float.

Section FloatSchedule.
Variable libm_pow : float -> float -> float.

(** [x ** z] for a [float] and an [int]: a zero exponent gives 1.0, a zero
    base under a negative exponent raises, the base 1.0 gives 1.0; the
    other cases have the value of [pow]. *)
Definition float_pow (x : float) (z : Z) : outcome float :=
  if (z =? 0)%Z then Returned 1%float
  else if (x =? 0)%float && (z <? 0)%Z then Raised ZeroDivisionError
  else if (x =? 1)%float then Returned 1%float
  else Returned (libm_pow x (float_of_int z)).

Definition annual_payment_of_float (debt_amount r : float) (n : Z)
    : outcome float :=
  if (r =? 0)%float then float_div debt_amount (float_of_int n)
  else
    let! p := float_pow (1 + r)%float (- n) in
    let! f := float_div r (1 - p)%float in
    Returned (debt_amount * f)%float.

Fixpoint amortize_float (annual_payment r : float) (count : nat) (yr : Z)
    (rem : float) : list FloatRow :=
  match count with
  | O => []
  | S count' =>
      let interest := (rem * r)%float in
      let principal := (annual_payment - interest)%float in
      let rem' := float_max0 (rem - principal)%float in
      mkFloatRow yr annual_payment interest principal rem'
      :: amortize_float annual_payment r count' (yr + 1) rem'
  end.

Definition build_amortization_schedule_float (debt_amount annual_rate : float)
    (years : Z) : outcome (list FloatRow) :=
  if (debt_amount <=? 0)%float || (annual_rate <? 0)%float
     || (years <=? 0)%Z
  then Returned []
  else
    let r := annual_rate in
    let n := years in
    let! annual_payment := annual_payment_of_float debt_amount r n in
    Returned (amortize_float annual_payment r (Z.to_nat n) 1 debt_amount).
End FloatSchedule.

(** The [float] that [1e-17] denotes in Python:
    [(1e-17).hex() = '0x1.70ef54646d497p-57']. *)
Definition rate_1e_17 : float := 0x1.70ef54646d497p-57%float.

(** ** ScenarioProjector *)

Record ScenarioFactors := mkScenarioFactors {
  occ_factor : Q;
  price_factor : Q;
  cost_factor : Q
}.

Record SeasonBase := mkSeasonBase {
  sb_days : Z;
  occupancy_base : gmap string Q;
  pricing_base : gmap string SeasonPricing
}.

(** The body of [for rt_name, occ_base in occupancy_base.items()]. *)
Definition scale_occupancy (occ_factor occ_base : Q) : Q :=
  py_min 1 (occ_base * occ_factor).

(** The body of [for rt_name, pb in pricing_base.items()]. *)
Definition scale_pricing (price_factor : Q) (pb : SeasonPricing)
    : SeasonPricing :=
  mkSeasonPricing
    (price_per_night pb * price_factor)
    (price_per_week pb * price_factor)
    (price_per_month pb * price_factor)
    (share_nightly pb) (share_weekly pb) (share_monthly pb).

(** Both loops fill a fresh dict under the keys of the base dict. *)
Definition scenario_season (params : ScenarioFactors)
    (item : string * SeasonBase) : Season :=
  let '(season_name, cfg) := item in
  mkSeason season_name (sb_days cfg)
    (scale_occupancy (occ_factor params) <$> occupancy_base cfg)
    (scale_pricing (price_factor params) <$> pricing_base cfg).

Definition scenario_seasons (params : ScenarioFactors)
    (seasons_base_config : odict SeasonBase) : list Season :=
  map (scenario_season params) seasons_base_config.

Record Financing := mkFinancing {
  growth_rate : Q;
  tax_rate : Q;
  exit_multiple : Q;
  exit_cost_rate : Q;
  horizon_years : Z;
  annual_depreciation : Q
}.

Record DscrRow := mkDscrRow {
  dr_year : Z;
  dr_ebitda : Q;
  dr_cfads : Q;
  dr_debt_service : Q;
  dr_dscr : option Q;
  dr_interest : Q;
  dr_principal : Q;
  dr_remaining : Q
}.

(** [(interest_t, principal_t, remaining_debt_t, debt_service_t)] of a
    projection year. *)
Definition debt_of_year (amort_schedule : list AmortizationRow) (yr : Z)
    : outcome (Q * Q * Q * Q) :=
  if (1 <=? yr)%Z && (yr <=? Z.of_nat (length amort_schedule))%Z then
    match nth_error amort_schedule (Z.to_nat (yr - 1)) with
    | Some sched =>
        Returned (interest sched, principal sched, remaining sched,
                  payment sched)
    | None => Raised IndexError
    end
  else
    Returned (0, 0,
              match amort_schedule with
              | [] => 0
              | row :: rest => remaining (List.last rest row)
              end, 0).

(** The body of [for year in range(1, horizon_years + 1)]: the year's
    [fcfe_t] and its row of the DSCR table. *)
Definition project_year (fin : Financing)
    (amort_schedule : list AmortizationRow) (ebitda_year1 : Q) (yr : Z)
    : outcome (Q * DscrRow) :=
  let! g := py_pow (1 + growth_rate fin) (yr - 1) in
  let ebitda_t := ebitda_year1 * g in
  let! debt := debt_of_year amort_schedule yr in
  let '(interest_t, principal_t, remaining_debt_t, debt_service_t) := debt in
  let depreciation_t := annual_depreciation fin in
  let ebit_t := ebitda_t - depreciation_t in
  let taxable_t := py_max 0 (ebit_t - interest_t) in
  let tax_t := taxable_t * tax_rate fin in
  let net_income_t := ebit_t - interest_t - tax_t in
  let cfads_t := ebitda_t - tax_t in
  let fcfe_t := net_income_t + depreciation_t - principal_t in
  let fcfe_t :=
    if (yr =? horizon_years fin)%Z then
      let exit_value := ebitda_t * exit_multiple fin in
      let exit_costs := exit_value * exit_cost_rate fin in
      let remaining_debt_for_exit := remaining_debt_t in
      let net_sale := exit_value - exit_costs - remaining_debt_for_exit in
      fcfe_t + net_sale
    else fcfe_t in
  let dscr_t :=
    if Qltb 0 debt_service_t then Some (cfads_t / debt_service_t)
    else None in
  Returned (fcfe_t,
            mkDscrRow yr ebitda_t cfads_t debt_service_t dscr_t
              interest_t principal_t remaining_debt_t).

(** The year loop: [count] years are left, the next one is [yr].  The
    result is the list of [fcfe_t] appended to [cashflows] and the list
    [dscr_rows]. *)
Fixpoint project_years (fin : Financing)
    (amort_schedule : list AmortizationRow) (ebitda_year1 : Q)
    (count : nat) (yr : Z) : outcome (list Q * list DscrRow) :=
  match count with
  | O => Returned ([], [])
  | S count' =>
      let! now := project_year fin amort_schedule ebitda_year1 yr in
      let! later :=
        project_years fin amort_schedule ebitda_year1 count' (yr + 1) in
      Returned (fst now :: fst later, snd now :: snd later)
  end.

Record ScenarioResult := mkScenarioResult {
  sc_results : Results;
  sc_revenue : Q;
  sc_total_costs : Q;
  sc_ebitda_year1 : Q;
  sc_cashflows : list Q;
  sc_irr : option Q;
  sc_dscr_rows : list DscrRow
}.

(** One turn of [for scenario_name, params in scenario_params.items()]. *)
Definition run_scenario (room_types : odict RoomType)
    (seasons_base_config : odict SeasonBase)
    (variable_cost_rate base_fixed_costs equity_amount : Q)
    (fin : Financing) (amort_schedule : list AmortizationRow)
    (params : ScenarioFactors) : outcome ScenarioResult :=
  let seasons := scenario_seasons params seasons_base_config in
  let results := simulate_annual_revenue room_types seasons in
  let revenue := total_revenue results in
  let variable_costs_base := revenue * variable_cost_rate in
  let fixed_costs_effective := base_fixed_costs * cost_factor params in
  let variable_costs_effective := variable_costs_base * cost_factor params in
  let total_costs := fixed_costs_effective + variable_costs_effective in
  let ebitda_year1 := revenue - total_costs in
  let! proj :=
    project_years fin amort_schedule ebitda_year1
      (Z.to_nat (horizon_years fin)) 1 in
  let cashflows := - equity_amount :: fst proj in
  let! irr := compute_irr cashflows default_tol default_max_iter in
  Returned (mkScenarioResult results revenue total_costs ebitda_year1
              cashflows irr (snd proj)).

(** ** The simulation as a whole *)

Record Assumptions := mkAssumptions {
  total_investment : Q;
  debt_ratio : Q;
  interest_rate : Q;
  loan_years : Z;
  amortizable_share : Q;
  deprec_years : Z;
  variable_cost_rate : Q;
  base_fixed_costs : Q;
  a_tax_rate : Q;
  a_growth_rate : Q;
  a_exit_multiple : Q;
  a_exit_cost_rate : Q;
  a_horizon_years : Z
}.

(** The loop over [scenario_params.items()], filling [scenario_results]. *)
Fixpoint run_scenarios (room_types : odict RoomType)
    (seasons_base_config : odict SeasonBase)
    (variable_cost_rate base_fixed_costs equity_amount : Q)
    (fin : Financing) (amort_schedule : list AmortizationRow)
    (scenario_params : odict ScenarioFactors)
    (scenario_results : odict ScenarioResult)
    : outcome (odict ScenarioResult) :=
  match scenario_params with
  | [] => Returned scenario_results
  | (scenario_name, params) :: rest =>
      let! res :=
        run_scenario room_types seasons_base_config variable_cost_rate
          base_fixed_costs equity_amount fin amort_schedule params in
      run_scenarios room_types seasons_base_config variable_cost_rate
        base_fixed_costs equity_amount fin amort_schedule rest
        (od_set scenario_results scenario_name res)
  end.

(** What the button of [main] runs: the schedule and the depreciation are
    computed once, then every scenario is projected. *)
Definition run_simulation (room_types : odict RoomType)
    (seasons_base_config : odict SeasonBase) (a : Assumptions)
    (scenario_params : odict ScenarioFactors)
    : outcome (odict ScenarioResult) :=
  let debt_amount := total_investment a * debt_ratio a in
  let equity_amount := total_investment a * (1 - debt_ratio a) in
  let! amort_schedule :=
    build_amortization_schedule debt_amount (interest_rate a)
      (loan_years a) in
  let amortizable_base := total_investment a * amortizable_share a in
  let! annual_depreciation :=
    py_div amortizable_base (inject_Z (deprec_years a)) in
  run_scenarios room_types seasons_base_config (variable_cost_rate a)
    (base_fixed_costs a) equity_amount
    (mkFinancing (a_growth_rate a) (a_tax_rate a) (a_exit_multiple a)
       (a_exit_cost_rate a) (a_horizon_years a) annual_depreciation)
    amort_schedule scenario_params [].

(** ** The exported statements *)

Record PnlRow := mkPnlRow {
  pnl_year : Z;
  pnl_revenue : Q;
  pnl_costs : Q;
  pnl_ebitda : Q;
  pnl_depreciation : Q;
  pnl_ebit : Q;
  pnl_interest : Q;
  pnl_tax : Q;
  pnl_net_income : Q
}.

(** [margin = ebitda_year1 / revenue_year1 if revenue_year1 > 0 else 0.0] *)
Definition ebitda_margin (ebitda_year1 revenue_year1 : Q) : Q :=
  if Qltb 0 revenue_year1 then ebitda_year1 / revenue_year1 else 0.

(** A line of the simplified P&L, from a row of the DSCR table. *)
Definition pnl_row (annual_depreciation tax_rate margin : Q)
    (row : DscrRow) : PnlRow :=
  let year := dr_year row in
  let ebitda_t := dr_ebitda row in
  let depreciation_t := annual_depreciation in
  let ebit_t := ebitda_t - depreciation_t in
  let interest_t := dr_interest row in
  let taxable_t := py_max 0 (ebit_t - interest_t) in
  let tax_t := taxable_t * tax_rate in
  let net_income_t := ebit_t - interest_t - tax_t in
  let revenue_t := if Qltb 0 margin then ebitda_t / margin else 0 in
  let costs_t := revenue_t - ebitda_t in
  mkPnlRow year revenue_t costs_t ebitda_t depreciation_t ebit_t
    interest_t tax_t net_income_t.

Record BilanRow := mkBilanRow {
  bl_year : Z;
  bl_net_ppe : Q;
  bl_debt : Q;
  bl_equity : Q;
  bl_ltv : option Q
}.

(** [min(year, deprec_years)] on integers. *)
Definition py_min_int (a b : Z) : Z := if (b <? a)%Z then b else a.

(** A line of the simplified balance sheet, from a row of the DSCR
    table. *)
Definition bilan_row (total_investment amortizable_share amortizable_base
    annual_depreciation : Q) (deprec_years : Z) (row : DscrRow) : BilanRow :=
  let non_depr_part := total_investment * (1 - amortizable_share) in
  let year := dr_year row in
  let debt_remain := dr_remaining row in
  let dep_accum :=
    annual_depreciation * inject_Z (py_min_int year deprec_years) in
  let net_amortizable := py_max 0 (amortizable_base - dep_accum) in
  let net_ppe := non_depr_part + net_amortizable in
  let equity_theo := net_ppe - debt_remain in
  let ltv := if Qltb 0 net_ppe then Some (debt_remain / net_ppe) else None in
  mkBilanRow year net_ppe debt_remain equity_theo ltv.

(** ** Configuration merge *)

(** A configuration value: a number or string, kept abstract as [A], or a
    nested [dict]. *)
#[warnings="-register-all"]
Inductive cfg_value (A : Type) :=
| CLeaf (a : A)
| CDict (items : list (string * cfg_value A)).
Arguments CLeaf {A} a.
Arguments CDict {A} items.

(** [deep_update(d, u)], by recursion on [u]: the value [uv] is the
    [dict] whose items are merged into the items [d]. *)
Fixpoint deep_update_value {A} (d : odict (cfg_value A)) (uv : cfg_value A)
    {struct uv} : odict (cfg_value A) :=
  match uv with
  | CLeaf _ => d
  | CDict items =>
      (fix loop (items : list (string * cfg_value A))
               (d : odict (cfg_value A)) : odict (cfg_value A) :=
         match items with
         | [] => d
         | (k, v) :: rest =>
             loop rest
               (match v, od_get d k with
                | CDict _, Some (CDict dk) =>
                    od_set d k (CDict (deep_update_value dk v))
                | _, _ => od_set d k v
                end)
         end) items d
  end.

Definition deep_update {A} (d u : odict (cfg_value A)) : odict (cfg_value A) :=
  deep_update_value d (CDict u).

(** ** Vocabulary of the properties *)

Definition total_share (p : SeasonPricing) : Q :=
  share_nightly p + share_weekly p + share_monthly p.

Definition weighted_sum (p : SeasonPricing) : Q :=
  share_nightly p * price_per_night p
  + share_weekly p * (price_per_week p / 7)
  + share_monthly p * (price_per_month p / 30).

(** The nightly equivalent a tenor contributes with, as the code computes
    it. *)
Definition weekly_equiv (p : SeasonPricing) : Q :=
  if truthy (price_per_week p) then price_per_week p / 7 else 0.
Definition monthly_equiv (p : SeasonPricing) : Q :=
  if truthy (price_per_month p) then price_per_month p / 30 else 0.

(** The same prices under shares all multiplied by [c]. *)
Definition scale_shares (c : Q) (p : SeasonPricing) : SeasonPricing :=
  mkSeasonPricing (price_per_night p) (price_per_week p) (price_per_month p)
    (c * share_nightly p) (c * share_weekly p) (c * share_monthly p).

(** The pricing of the worked example: 150 a night, 950 a week, no monthly
    price, mix 0.6 / 0.3 / 0.1. *)
Definition pricing_example : SeasonPricing :=
  mkSeasonPricing 150 950 0 0.6 0.3 0.1.

(** A row of the breakdown for a room type priced by [p] and without an
    occupancy entry. *)
Definition zero_entry (p : SeasonPricing) (rb : RoomBreakdown) : Prop :=
  rb_equivalent_nightly_rate rb = equivalent_nightly_rate p /\
  rb_occupancy_rate rb = 0 /\
  rb_occupied_nights rb == 0 /\
  rb_revenue rb == 0.

(** The DSCR of a row agrees with its debt service. *)
Definition dscr_consistent (row : DscrRow) : Prop :=
  (dr_dscr row = None <-> dr_debt_service row <= 0) /\
  (0 < dr_debt_service row ->
   dr_dscr row = Some (dr_cfads row / dr_debt_service row)).

(** The present value, at rate [r], of [j] yearly payments of 1:
    [a 0 = 0] and [a (j+1) = (1 + a j) / (1 + r)]. *)
Fixpoint annuity_factor (r : Q) (j : nat) : Q :=
  match j with
  | O => 0
  | S j' => (1 + annuity_factor r j') / (1 + r)
  end.

Definition sum_principal (rows : list AmortizationRow) : Q :=
  fold_right (fun row acc => principal row + acc) 0 rows.

Fixpoint non_increasing (l : list Q) : Prop :=
  match l with
  | a :: (b :: _) as tl => b <= a /\ non_increasing tl
  | _ => True
  end.

(** No sign change in a series of cash flows. *)
Definition no_sign_change (cashflows : list Q) : Prop :=
  Forall (fun cf => 0 <= cf) cashflows \/ Forall (fun cf => cf <= 0) cashflows.

(** [bracket cashflows tol k low high]: [(low, high)] is the search interval
    after [k] turns of the bisection loop, none of which met the
    tolerance. *)
Inductive bracket (cashflows : list Q) (tol : Q) : nat -> Q -> Q -> Prop :=
| bracket_start : bracket cashflows tol 0 irr_low irr_high
| bracket_raise k low high v :
    bracket cashflows tol k low high ->
    npv cashflows ((low + high) / 2) = Returned v ->
    tol <= Qabs v -> 0 < v ->
    bracket cashflows tol (S k) ((low + high) / 2) high
| bracket_lower k low high v :
    bracket cashflows tol k low high ->
    npv cashflows ((low + high) / 2) = Returned v ->
    tol <= Qabs v -> v <= 0 ->
    bracket cashflows tol (S k) low ((low + high) / 2).

Definition Qsum (l : list Q) : Q := fold_right Qplus 0 l.

(** What a room type of the inventory earns in a season: nothing when the
    season does not price it, otherwise rooms times days times occupancy
    (0 when the season gives none) times the blended rate. *)
Definition item_revenue (season : Season) (item : string * RoomType) : Q :=
  match pricing season !! fst item with
  | None => 0
  | Some p =>
      inject_Z (rt_count (snd item) * days season)
      * default 0 (occupancy season !! fst item)
      * equivalent_nightly_rate p
  end.

Definition nonneg_pricing (p : SeasonPricing) : Prop :=
  0 <= price_per_night p /\ 0 <= price_per_week p /\
  0 <= price_per_month p /\
  0 <= share_nightly p /\ 0 <= share_weekly p /\ 0 <= share_monthly p.

Definition nonneg_season (s : Season) : Prop :=
  (0 <= days s)%Z /\
  (forall k v, occupancy s !! k = Some v -> 0 <= v) /\
  (forall k p, pricing s !! k = Some p -> nonneg_pricing p).

(** Whether a season prices a room type. *)
Definition priced (season : Season) (k : string) : bool :=
  match pricing season !! k with Some _ => true | None => false end.

(** [rows_chain P start rows]: every row satisfies [P] with the balance
    before it, which is [start] for the first row and the remaining balance
    of the previous row for the others. *)
Fixpoint rows_chain (P : Q -> AmortizationRow -> Prop) (start : Q)
    (rows : list AmortizationRow) : Prop :=
  match rows with
  | [] => True
  | row :: rest => P start row /\ rows_chain P (remaining row) rest
  end.

(** [consecutive P rows]: [P] relates every row to the next one. *)
Fixpoint consecutive (P : AmortizationRow -> AmortizationRow -> Prop)
    (rows : list AmortizationRow) : Prop :=
  match rows with
  | a :: (b :: _) as tl => P a b /\ consecutive P tl
  | _ => True
  end.

(** The balance a schedule ends with: 0 for an empty schedule. *)
Definition final_balance (amort_schedule : list AmortizationRow) : Q :=
  match amort_schedule with
  | [] => 0
  | row :: rest => remaining (List.last rest row)
  end.

(** The debt columns of the projection row of year [yr] repeat the row of
    the schedule for that year; past the schedule they are 0, the balance
    staying at the final balance of the schedule. *)
Definition mirrors_schedule (amort_schedule : list AmortizationRow)
    (yr : Z) (row : DscrRow) : Prop :=
  match nth_error amort_schedule (Z.to_nat (yr - 1)) with
  | Some sched =>
      dr_interest row = interest sched /\
      dr_principal row = principal sched /\
      dr_remaining row = remaining sched /\
      dr_debt_service row = payment sched
  | None =>
      dr_interest row = 0 /\ dr_principal row = 0 /\
      dr_debt_service row = 0 /\
      dr_remaining row = final_balance amort_schedule
  end.

(** The proceeds of the sale in the last year, net of costs and debt. *)
Definition net_sale_of (fin : Financing) (row : DscrRow) : Q :=
  dr_ebitda row * exit_multiple fin
  - dr_ebitda row * exit_multiple fin * exit_cost_rate fin
  - dr_remaining row.

(** What [deep_update] leaves under a key of the override: the override
    value, except that a [dict] meeting a [dict] is merged into it. *)
Definition merged {A} (old : option (cfg_value A)) (v : cfg_value A)
    : cfg_value A :=
  match v, old with
  | CDict vi, Some (CDict dk) => CDict (deep_update dk vi)
  | _, _ => v
  end.

(** Keys are distinct in every [dict] of a configuration value. *)
Fixpoint distinct_keys {A} (v : cfg_value A) : Prop :=
  match v with
  | CLeaf _ => True
  | CDict items =>
      List.NoDup (map fst items) /\
      (fix all (items : list (string * cfg_value A)) : Prop :=
         match items with
         | [] => True
         | (_, v) :: rest => distinct_keys v /\ all rest
         end) items
  end.

(** Induction over a configuration value and the values nested in it. *)
Fixpoint cfg_nested_ind {A} (P : cfg_value A -> Prop)
    (Hleaf : forall a, P (CLeaf a))
    (Hdict : forall items,
        Forall (fun kv => P (snd kv)) items -> P (CDict items))
    (v : cfg_value A) : P v :=
  match v with
  | CLeaf a => Hleaf a
  | CDict items =>
      Hdict items
        ((fix all (l : list (string * cfg_value A))
            : Forall (fun kv => P (snd kv)) l :=
            match l with
            | [] => @List.Forall_nil _ (fun kv => P (snd kv))
            | (k, v') :: rest =>
                @List.Forall_cons _ (fun kv => P (snd kv)) (k, v') rest
                  (cfg_nested_ind P Hleaf Hdict v') (all rest)
            end) items)
  end.

(** What a room type would earn in a season at full occupancy. *)
Definition capacity_revenue (season : Season) (item : string * RoomType) : Q :=
  match pricing season !! fst item with
  | None => 0
  | Some p =>
      inject_Z (rt_count (snd item) * days season)
      * equivalent_nightly_rate p
  end.

(** The same season with every occupancy multiplied by [c]. *)
Definition scale_season_occupancy (c : Q) (s : Season) : Season :=
  mkSeason (season_name s) (days s) (Qmult c <$> occupancy s) (pricing s).

Definition nonneg_season_base (cfg : SeasonBase) : Prop :=
  (0 <= sb_days cfg)%Z /\
  (forall k p, pricing_base cfg !! k = Some p -> nonneg_pricing p).

(** The debt service, the cash flow available for it and the DSCR of the
    projection row of year [yr], from the inputs of the projection: inside
    the schedule the debt service is the payment of the schedule row and the
    DSCR is the ratio when that payment is positive; past the schedule the
    debt service is 0 and there is no DSCR. *)
Definition dscr_of_schedule (fin : Financing)
    (amort_schedule : list AmortizationRow) (ebitda_year1 : Q) (yr : Z)
    (row : DscrRow) : Prop :=
  let ebitda_t := ebitda_year1 * (1 + growth_rate fin) ^ (yr - 1) in
  match nth_error amort_schedule (Z.to_nat (yr - 1)) with
  | Some sched =>
      dr_debt_service row = payment sched /\
      dr_cfads row
      = ebitda_t
        - py_max 0 (ebitda_t - annual_depreciation fin - interest sched)
          * tax_rate fin /\
      (0 < payment sched ->
       dr_dscr row = Some (dr_cfads row / payment sched)) /\
      (payment sched <= 0 -> dr_dscr row = None)
  | None =>
      dr_debt_service row = 0 /\
      dr_cfads row
      = ebitda_t
        - py_max 0 (ebitda_t - annual_depreciation fin - 0) * tax_rate fin /\
      dr_dscr row = None
  end.

(** Example inputs. *)

(** Six double rooms; a 90-day season at 85% occupancy. *)
Definition inventory_example : odict RoomType :=
  [("Double"%string, mkRoomType "Double" 6)].

Definition season_example : Season :=
  mkSeason "Ete" 90 {[ "Double"%string := 0.85 ]}
    {[ "Double"%string := pricing_example ]}.

Definition assumptions_example : Assumptions :=
  mkAssumptions 1000 0.5 0.1 2 0.8 25 0.15 100 0.2 0.02 12 0.03 2.

Definition dscr_row_example : DscrRow :=
  mkDscrRow 3 5000 4800 0 None 0 0 0.

(** The schedule of a two-year loan of 1000 at 10%. *)
Definition small_schedule : list AmortizationRow :=
  Eval vm_compute in
    match build_amortization_schedule 1000 0.1 2 with
    | Returned rows => rows
    | Raised _ => []
    end.

Definition season_base_example : SeasonBase :=
  mkSeasonBase 90 {[ "Double"%string := 0.95 ]}
    {[ "Double"%string := pricing_example ]}.

Definition optimistic : ScenarioFactors := mkScenarioFactors 1.10 1.05 1.

Definition financing_example : Financing :=
  mkFinancing 0.02 0.2 12 0.03 2 1000.

(** An outlay of 1 repaid by 3 a year later: the rate of return is 200%,
    above the search interval.  [irr_example] is the rate returned under a
    cap of four turns. *)
Definition cashflows_example : list Q := [-1; 3].

Definition irr_example : Q :=
  Eval vm_compute in
    match compute_irr cashflows_example default_tol 4 with
    | Returned (Some r) => r
    | _ => 0
    end.

Definition season_no_occupancy : Season :=
  mkSeason "Hiver" 90 ∅ {[ "Double"%string := pricing_example ]}.

(** ** Basic facts on the comparisons *)

Lemma Qleb_true x y : Qleb x y = true <-> x <= y.
Proof. unfold Qleb. apply Qle_bool_iff. Qed.

Lemma Qleb_false x y : Qleb x y = false <-> y < x.
Proof.
  unfold Qleb. split.
  - intros H. apply Qnot_le_lt. intros Hle.
    apply Qle_bool_iff in Hle. congruence.
  - intros H. destruct (Qle_bool x y) eqn:E; [|reflexivity].
    apply Qle_bool_iff in E. exfalso. apply (Qlt_not_le _ _ H E).
Qed.

Lemma Qltb_true x y : Qltb x y = true <-> x < y.
Proof.
  unfold Qltb. rewrite negb_true_iff. apply (Qleb_false y x).
Qed.

Lemma Qltb_false x y : Qltb x y = false <-> y <= x.
Proof.
  unfold Qltb. rewrite negb_false_iff. apply (Qleb_true y x).
Qed.

Lemma Qpos_neq0 x : 0 < x -> ~ x == 0.
Proof. intros H E. rewrite E in H. apply (Qlt_irrefl _ H). Qed.

Lemma truthy_false x : truthy x = false <-> x == 0.
Proof.
  unfold truthy. rewrite negb_false_iff. apply Qeq_bool_iff.
Qed.

(** A tenor price converted to a nightly equivalent: the guard on a zero
    price changes nothing numerically. *)
Lemma tenor_guard x d : (if truthy x then x / d else 0) == x / d.
Proof.
  destruct (truthy x) eqn:E; [reflexivity|].
  apply truthy_false in E. rewrite E. unfold Qdiv. ring.
Qed.

(** ** C1, C6: the blended nightly rate *)

(** C1. [equivalent_nightly_rate] is 0 when the shares sum to at most 0;
    otherwise it is the share-weighted sum of the nightly price, the weekly
    price over 7 and the monthly price over 30, divided by the share total.
    A zero weekly or monthly price contributes 0, and the weight of that
    tenor stays in the divisor. *)
Theorem C1_equivalent_nightly_rate_spec (p : SeasonPricing) :
  (total_share p <= 0 -> equivalent_nightly_rate p = 0) /\
  (0 < total_share p ->
     equivalent_nightly_rate p == weighted_sum p / total_share p /\
     equivalent_nightly_rate p ==
       (share_nightly p * price_per_night p
        + share_weekly p * weekly_equiv p
        + share_monthly p * monthly_equiv p) / total_share p /\
     (price_per_week p == 0 -> weekly_equiv p = 0) /\
     (price_per_month p == 0 -> monthly_equiv p = 0)).
Proof.
  unfold equivalent_nightly_rate, total_share, weighted_sum,
    weekly_equiv, monthly_equiv.
  split.
  - intros H. apply Qleb_true in H. rewrite H. reflexivity.
  - intros H. pose proof H as Hb. apply Qleb_false in Hb. rewrite Hb.
    assert (Hnz : ~ share_nightly p + share_weekly p + share_monthly p == 0)
      by (apply Qpos_neq0; exact H).
    repeat split.
    + rewrite !tenor_guard. field. exact Hnz.
    + field. exact Hnz.
    + intros E. apply truthy_false in E. rewrite E. reflexivity.
    + intros E. apply truthy_false in E. rewrite E. reflexivity.
Qed.

Lemma C1_equivalent_nightly_rate_witness :
  0 < total_share pricing_example /\
  equivalent_nightly_rate pricing_example ==
    weighted_sum pricing_example / total_share pricing_example.
Proof.
  split; [reflexivity|].
  apply (C1_equivalent_nightly_rate_spec pricing_example). reflexivity.
Defined.

(** The worked example of the blended rate: 915/7, about 130.71. *)
Example equivalent_nightly_rate_example :
  equivalent_nightly_rate pricing_example == 915 # 7.
Proof. reflexivity. Qed.

(** C6. When the shares sum to a positive value, multiplying the three
    shares by one positive constant, the prices unchanged, leaves
    [equivalent_nightly_rate] unchanged. *)
Theorem C6_equivalent_nightly_rate_scale_invariant
    (p : SeasonPricing) (c : Q) :
  0 < c -> 0 < total_share p ->
  equivalent_nightly_rate (scale_shares c p) == equivalent_nightly_rate p.
Proof.
  unfold total_share. intros Hc Hp.
  assert (Hcp : 0 < c * share_nightly p + c * share_weekly p
                    + c * share_monthly p).
  { assert (E : c * share_nightly p + c * share_weekly p
                + c * share_monthly p
                == c * (share_nightly p + share_weekly p + share_monthly p))
      by ring.
    rewrite E. apply Qmult_lt_0_compat; assumption. }
  unfold equivalent_nightly_rate, scale_shares; cbn [share_nightly
    share_weekly share_monthly price_per_night price_per_week
    price_per_month].
  rewrite (proj2 (Qleb_false _ _) Hcp), (proj2 (Qleb_false _ _) Hp).
  rewrite !tenor_guard. field. split; apply Qpos_neq0; assumption.
Qed.

Lemma C6_equivalent_nightly_rate_scale_invariant_witness :
  equivalent_nightly_rate (scale_shares 10 pricing_example)
  == equivalent_nightly_rate pricing_example.
Proof.
  apply (C6_equivalent_nightly_rate_scale_invariant pricing_example 10);
    reflexivity.
Defined.

(** ** C3: scaling of the base assumptions by a scenario *)

Lemma py_min_Qmin a b : py_min a b == Qmin a b.
Proof.
  unfold py_min. destruct (Qltb b a) eqn:E.
  - apply Qltb_true in E. symmetry. apply Q.min_r. apply Qlt_le_weak, E.
  - apply Qltb_false in E. symmetry. apply Q.min_l. exact E.
Qed.

Lemma py_min_le_l a b : py_min a b <= a.
Proof. rewrite py_min_Qmin. apply Q.le_min_l. Qed.

(** C3. Every season handed to the revenue aggregator comes from a base
    season; under each room type its occupancy is
    [min(1.0, base_occupancy * occ_factor)], hence at most 1, and each of
    its three tenor prices is the base price times [price_factor], with no
    cap; the shares are the base shares. *)
Theorem C3_scenario_scaling (params : ScenarioFactors)
    (seasons_base_config : odict SeasonBase) (s : Season) :
  In s (scenario_seasons params seasons_base_config) ->
  exists name cfg,
    In (name, cfg) seasons_base_config /\
    season_name s = name /\ days s = sb_days cfg /\
    forall rt_name,
      (occupancy_base cfg !! rt_name = None ->
       occupancy s !! rt_name = None) /\
      (forall occ_base, occupancy_base cfg !! rt_name = Some occ_base ->
         exists occ_scen,
           occupancy s !! rt_name = Some occ_scen /\
           occ_scen = py_min 1 (occ_base * occ_factor params) /\
           occ_scen == Qmin 1 (occ_base * occ_factor params) /\
           occ_scen <= 1) /\
      (forall pb, pricing_base cfg !! rt_name = Some pb ->
         exists p,
           pricing s !! rt_name = Some p /\
           price_per_night p = price_per_night pb * price_factor params /\
           price_per_week p = price_per_week pb * price_factor params /\
           price_per_month p = price_per_month pb * price_factor params /\
           share_nightly p = share_nightly pb /\
           share_weekly p = share_weekly pb /\
           share_monthly p = share_monthly pb).
Proof.
  unfold scenario_seasons. intros Hin. apply in_map_iff in Hin.
  destruct Hin as [[name cfg] [Hs Hin]]. exists name, cfg.
  subst s. cbn [scenario_season season_name days occupancy pricing].
  repeat split; try assumption.
  - intros Hnone. rewrite lookup_fmap, Hnone. reflexivity.
  - intros occ_base Hb. exists (py_min 1 (occ_base * occ_factor params)).
    rewrite lookup_fmap, Hb. repeat split.
    + apply py_min_Qmin.
    + apply py_min_le_l.
  - intros pb Hb. exists (scale_pricing (price_factor params) pb).
    rewrite lookup_fmap, Hb. repeat split.
Qed.

Lemma C3_scenario_scaling_witness :
  exists name cfg,
    In (name, cfg) [("Ete"%string, season_base_example)] /\
    season_name (scenario_season optimistic
                   ("Ete"%string, season_base_example)) = name /\
    sb_days cfg = 90%Z.
Proof.
  destruct (C3_scenario_scaling optimistic
              [("Ete"%string, season_base_example)]
              (scenario_season optimistic
                 ("Ete"%string, season_base_example)))
    as [name [cfg [Hin [Hn [Hd _]]]]].
  - left. reflexivity.
  - exists name, cfg. repeat split; try assumption.
    rewrite <- Hd. reflexivity.
Defined.

(** A base occupancy of 0.95 under an occupancy factor of 1.10 is clamped
    to exactly 1. *)
Example scale_occupancy_clamps :
  occupancy (scenario_season optimistic ("Ete"%string, season_base_example))
    !! "Double"%string = Some 1.
Proof. vm_compute. reflexivity. Qed.

(** ** Powers with a non-negative exponent *)

Lemma py_pow_nonneg_exponent x z : (0 <= z)%Z -> py_pow x z = Returned (x ^ z).
Proof.
  intros Hz. unfold py_pow.
  replace (z <? 0)%Z with false by (symmetry; apply Z.ltb_ge; exact Hz).
  rewrite andb_false_r. reflexivity.
Qed.

(** ** C10: a priced room type without an occupancy entry *)

Lemma od_get_set_eq {V} (d : odict V) k v : od_get (od_set d k v) k = Some v.
Proof.
  induction d as [|[k' v'] d IH]; cbn.
  - rewrite String.eqb_refl. reflexivity.
  - destruct (String.eqb k' k) eqn:E; cbn; rewrite E; [reflexivity | exact IH].
Qed.

Lemma od_get_set_ne {V} (d : odict V) k k' v :
  k <> k' -> od_get (od_set d k v) k' = od_get d k'.
Proof.
  intros Hne. induction d as [|[k0 v0] d IH]; cbn.
  - destruct (String.eqb_spec k k'); [contradiction | reflexivity].
  - destruct (String.eqb_spec k0 k) as [->|Hk]; cbn.
    + destruct (String.eqb_spec k k'); [contradiction | reflexivity].
    + destruct (String.eqb_spec k0 k'); [reflexivity | exact IH].
Qed.

Lemma by_room_type_fold (room_types : odict RoomType) (season : Season) :
  by_room_type (season_result room_types season)
  = snd (fold_left (room_step season) room_types (0, [])).
Proof.
  unfold season_result.
  destruct (fold_left (room_step season) room_types (0, [])). reflexivity.
Qed.

Section RoomLoop.
Variable season : Season.
Variable rt_name : string.

(** Without a price the room type never enters the breakdown. *)
Lemma room_loop_unpriced (room_types : odict RoomType) :
  pricing season !! rt_name = None ->
  forall st, od_get (snd st) rt_name = None ->
  od_get (snd (fold_left (room_step season) room_types st)) rt_name = None.
Proof.
  intros Hp. induction room_types as [|[k rt] rts IH]; intros st Hst.
  - exact Hst.
  - cbn [fold_left]. apply IH. destruct st as [rev bd].
    unfold room_step. destruct (pricing season !! k) as [pk|] eqn:Ek.
    + cbn [snd] in *. rewrite od_get_set_ne; [exact Hst|].
      intros ->. congruence.
    + exact Hst.
Qed.

Variable p : SeasonPricing.
Hypothesis Hocc : occupancy season !! rt_name = None.
Hypothesis Hprice : pricing season !! rt_name = Some p.

Let has_zero_entry (bd : odict RoomBreakdown) : Prop :=
  exists rb, od_get bd rt_name = Some rb /\ zero_entry p rb.

Lemma room_step_zero_entry st rt :
  has_zero_entry (snd (room_step season st (rt_name, rt))).
Proof.
  destruct st as [rev bd]. unfold room_step. rewrite Hocc, Hprice.
  cbn [default snd]. eexists. split; [apply od_get_set_eq|].
  unfold zero_entry; cbn. repeat split; ring.
Qed.

Lemma room_step_keeps_zero_entry st item :
  has_zero_entry (snd st) -> has_zero_entry (snd (room_step season st item)).
Proof.
  intros Hst. destruct item as [k rt].
  destruct (String.eqb_spec k rt_name) as [->|Hk].
  - apply room_step_zero_entry.
  - destruct st as [rev bd]. unfold room_step.
    destruct (pricing season !! k); [|exact Hst].
    destruct Hst as [rb [Hg Hz]]. exists rb. split; [|exact Hz].
    cbn [snd] in *. rewrite od_get_set_ne; assumption.
Qed.

Lemma room_loop_zero_entry (room_types : odict RoomType) :
  forall st,
    has_zero_entry (snd st) \/ (exists rt, In (rt_name, rt) room_types) ->
    has_zero_entry (snd (fold_left (room_step season) room_types st)).
Proof.
  induction room_types as [|item rts IH]; intros st H.
  - destruct H as [H|[rt []]]. exact H.
  - cbn [fold_left]. apply IH. destruct H as [H|[rt [Hin|Hin]]].
    + left. apply room_step_keeps_zero_entry, H.
    + left. subst item. apply room_step_zero_entry.
    + right. exists rt. exact Hin.
Qed.
End RoomLoop.

Lemma per_season_later (room_types : odict RoomType) (name : string)
    (after : list Season) :
  Forall (fun s => season_name s <> name) after ->
  forall results,
    od_get (per_season (fold_left (season_step room_types) after results)) name
    = od_get (per_season results) name.
Proof.
  induction 1 as [|s after Hs _ IH]; intros results; [reflexivity|].
  cbn [fold_left]. rewrite IH. unfold season_step. cbn [per_season].
  apply od_get_set_ne, Hs.
Qed.

(** C10. The result stored under a season's name is the breakdown of the
    last season of that name.  In it, a room type of the inventory that the
    season prices but gives no occupancy has an entry: occupancy rate 0, no
    occupied nights, no revenue, the blended rate of its pricing.  A room
    type that the season does not price has no entry. *)
Theorem C10_missing_occupancy_is_zero (room_types : odict RoomType)
    (before after : list Season) (season : Season) (rt_name : string) :
  Forall (fun s => season_name s <> season_name season) after ->
  exists sr,
    od_get (per_season
              (simulate_annual_revenue room_types
                 (before ++ season :: after))) (season_name season)
      = Some sr /\
    (forall room_type p,
       In (rt_name, room_type) room_types ->
       pricing season !! rt_name = Some p ->
       occupancy season !! rt_name = None ->
       exists rb,
         od_get (by_room_type sr) rt_name = Some rb /\ zero_entry p rb) /\
    (pricing season !! rt_name = None ->
     od_get (by_room_type sr) rt_name = None).
Proof.
  intros Hafter. exists (season_result room_types season).
  unfold simulate_annual_revenue.
  rewrite fold_left_app. cbn [fold_left].
  rewrite (per_season_later _ _ _ Hafter).
  unfold season_step at 1. cbn [per_season].
  split; [apply od_get_set_eq|]. rewrite by_room_type_fold. split.
  - intros room_type p Hin Hp Ho.
    apply (room_loop_zero_entry season rt_name p Ho Hp).
    right. exists room_type. exact Hin.
  - intros Hp. apply room_loop_unpriced; [exact Hp | reflexivity].
Qed.

Lemma C10_missing_occupancy_is_zero_witness :
  exists sr,
    od_get (per_season
              (simulate_annual_revenue
                 [("Double"%string, mkRoomType "Double" 6)]
                 ([] ++ season_no_occupancy :: [])))
      (season_name season_no_occupancy) = Some sr.
Proof.
  destruct (C10_missing_occupancy_is_zero
              [("Double"%string, mkRoomType "Double" 6)] [] []
              season_no_occupancy "Double"%string) as [sr [H _]].
  - constructor.
  - exists sr. exact H.
Defined.

(** The entry of the room type in the example above. *)
Example missing_occupancy_example :
  by_room_type
    (season_result [("Double"%string, mkRoomType "Double" 6)]
       season_no_occupancy)
  = [("Double"%string,
      mkRoomBreakdown (equivalent_nightly_rate pricing_example) 0 540
        (540 * 0) (540 * 0 * equivalent_nightly_rate pricing_example))].
Proof. reflexivity. Qed.

(** ** The annuity factor *)

Section Annuity.
Variable r : Q.
Hypothesis Hr : 0 <= r.

Lemma rate_plus_one_pos : 0 < 1 + r.
Proof. lra. Qed.

Lemma annuity_factor_bounds (j : nat) :
  0 <= annuity_factor r j /\ r * annuity_factor r j <= 1.
Proof.
  induction j as [|j [IH0 IH1]]; cbn [annuity_factor].
  - split; lra.
  - pose proof rate_plus_one_pos as Hq. split.
    + apply Qle_shift_div_l; lra.
    + assert (E : r * ((1 + annuity_factor r j) / (1 + r))
                  == (r + r * annuity_factor r j) / (1 + r))
        by (field; lra).
      rewrite E. apply Qle_shift_div_r; lra.
Qed.

Lemma annuity_factor_mono (j : nat) :
  annuity_factor r j <= annuity_factor r (S j).
Proof.
  destruct (annuity_factor_bounds j) as [H0 H1]. cbn [annuity_factor].
  pose proof rate_plus_one_pos as Hq.
  apply Qle_shift_div_l; [exact Hq|]. lra.
Qed.

(** One year of interest and one payment move the balance from the value
    of [S j] payments to the value of [j] payments. *)
Lemma annuity_step (A rem : Q) (j : nat) :
  rem == A * annuity_factor r (S j) ->
  rem - (A - rem * r) == A * annuity_factor r j.
Proof.
  intros Hrem. rewrite Hrem. cbn [annuity_factor]. field.
  pose proof rate_plus_one_pos. lra.
Qed.

Lemma annuity_factor_zero_rate (j : nat) :
  r == 0 -> annuity_factor r j == inject_Z (Z.of_nat j).
Proof.
  intros Hz. induction j as [|j IH].
  - reflexivity.
  - cbn [annuity_factor]. rewrite IH, Hz, Nat2Z.inj_succ.
    unfold Z.succ. rewrite inject_Z_plus. field.
Qed.

Lemma annuity_factor_closed (j : nat) :
  ~ r == 0 ->
  annuity_factor r j == (1 - (1 + r) ^ (- Z.of_nat j)) / r.
Proof.
  intros Hnz. pose proof rate_plus_one_pos as Hq.
  induction j as [|j IH].
  - change (annuity_factor r 0) with 0.
    change ((1 + r) ^ (- Z.of_nat 0)) with 1. field. exact Hnz.
  - cbn [annuity_factor]. rewrite IH.
    replace (- Z.of_nat (S j))%Z with (- Z.of_nat j + -1)%Z by lia.
    rewrite Qpower_plus by lra.
    change ((1 + r) ^ (-1)) with (/ (1 + r)).
    field. split; [lra | exact Hnz].
Qed.
End Annuity.

(** ** The annual payment *)

Lemma py_div_nonzero x y : ~ y == 0 -> py_div x y = Returned (x / y).
Proof.
  intros Hy. unfold py_div. destruct (Qeq_bool y 0) eqn:E; [|reflexivity].
  apply Qeq_bool_iff in E. contradiction.
Qed.

Lemma py_pow_nonzero_base x z : ~ x == 0 -> py_pow x z = Returned (x ^ z).
Proof.
  intros Hx. unfold py_pow. destruct (Qeq_bool x 0) eqn:E; [|reflexivity].
  apply Qeq_bool_iff in E. contradiction.
Qed.

Lemma inject_Z_pos (n : Z) : (0 < n)%Z -> 0 < inject_Z n.
Proof. intros H. change 0 with (inject_Z 0). rewrite <- Zlt_Qlt. exact H. Qed.

(** With a positive rate the discount factor [(1 + r) ** -n] lies strictly
    between 0 and 1, so the annuity formula divides by a positive number. *)
Lemma discount_factor_bounds (r : Q) (n : Z) :
  0 < r -> (0 < n)%Z -> 0 < (1 + r) ^ (- n) < 1.
Proof.
  intros Hr Hn. split.
  - apply Qpower_0_lt. lra.
  - change 1 with ((1 + r) ^ 0) at 2.
    apply Qpower_lt_compat_l; [lia | lra].
Qed.

(** The payment is computed without error, is positive, and the debt is the
    present value of [n] such payments. *)
Lemma annual_payment_returns (debt_amount r : Q) (n : Z) :
  0 < debt_amount -> 0 <= r -> (0 < n)%Z ->
  exists A,
    annual_payment_of debt_amount r n = Returned A /\
    0 < A /\
    debt_amount == A * annuity_factor r (Z.to_nat n).
Proof.
  intros HD Hr Hn. unfold annual_payment_of.
  pose proof (inject_Z_pos n Hn) as Hnq.
  destruct (Qeq_bool r 0) eqn:E.
  - apply Qeq_bool_iff in E.
    rewrite py_div_nonzero by (apply Qpos_neq0; exact Hnq).
    eexists. split; [reflexivity|]. split.
    + apply Qlt_shift_div_l; lra.
    + rewrite (annuity_factor_zero_rate r (Z.to_nat n) E).
      rewrite Z2Nat.id by lia. field. apply Qpos_neq0; exact Hnq.
  - apply Qeq_bool_neq in E. assert (Hrp : 0 < r) by lra.
    destruct (discount_factor_bounds r n Hrp Hn) as [Hp0 Hp1].
    rewrite py_pow_nonzero_base by lra. cbn [obind].
    rewrite py_div_nonzero by lra. cbn [obind].
    eexists. split; [reflexivity|]. split.
    + apply Qmult_lt_0_compat; [exact HD|].
      apply Qlt_shift_div_l; lra.
    + rewrite (annuity_factor_closed r Hr (Z.to_nat n) E).
      rewrite Z2Nat.id by lia. field. split; lra.
Qed.

(** ** The amortization loop *)

Lemma py_max_0_nonneg x : 0 <= x -> py_max 0 x == x.
Proof.
  intros Hx. unfold py_max. destruct (Qltb 0 x) eqn:E; [reflexivity|].
  apply Qltb_false in E. lra.
Qed.

Lemma py_max_0_ge x : 0 <= py_max 0 x.
Proof.
  unfold py_max. destruct (Qltb 0 x) eqn:E; [|lra].
  apply Qltb_true in E. lra.
Qed.

Lemma amortize_length A r count yr rem :
  length (amortize A r count yr rem) = count.
Proof.
  revert yr rem. induction count as [|count IH]; intros yr rem; cbn.
  - reflexivity.
  - rewrite IH. reflexivity.
Qed.

Lemma amortize_years A r count yr rem i row :
  nth_error (amortize A r count yr rem) i = Some row ->
  year row = (yr + Z.of_nat i)%Z.
Proof.
  revert yr rem i. induction count as [|count IH]; intros yr rem i H.
  - destruct i; discriminate H.
  - cbn [amortize] in H. destruct i as [|i]; cbn [nth_error] in H.
    + injection H as <-. cbn [year]. lia.
    + apply IH in H. rewrite H. lia.
Qed.

Section Amortize.
Variables A r : Q.
Hypothesis Hr : 0 <= r.
Hypothesis HA : 0 <= A.

(** The balance after a turn, when the balance before it is the value of
    [S j] payments. *)
Lemma balance_step (rem : Q) (j : nat) :
  rem == A * annuity_factor r (S j) ->
  py_max 0 (rem - (A - rem * r)) == A * annuity_factor r j.
Proof.
  intros Hrem. rewrite py_max_0_nonneg.
  - apply annuity_step; assumption.
  - rewrite (annuity_step r Hr A rem j Hrem).
    apply Qmult_le_0_compat; [exact HA|].
    apply (annuity_factor_bounds r Hr j).
Qed.

Lemma amortize_sum_principal (count : nat) : forall yr rem,
  rem == A * annuity_factor r count ->
  sum_principal (amortize A r count yr rem) == rem.
Proof.
  induction count as [|count IH]; intros yr rem Hrem.
  - cbn in *. rewrite Hrem. ring.
  - cbn [amortize sum_principal fold_right principal].
    fold (sum_principal
            (amortize A r count (yr + 1) (py_max 0 (rem - (A - rem * r))))).
    rewrite IH by (apply balance_step; exact Hrem).
    rewrite balance_step by exact Hrem.
    rewrite <- (annuity_step r Hr A rem count Hrem). ring.
Qed.

Lemma amortize_last_remaining (count : nat) : forall yr rem row,
  rem == A * annuity_factor r count ->
  last (amortize A r count yr rem) = Some row ->
  remaining row == 0.
Proof.
  induction count as [|count IH]; intros yr rem row Hrem Hlast.
  - discriminate Hlast.
  - cbn [amortize] in Hlast. destruct count as [|count].
    + cbn in Hlast. injection Hlast as <-. cbn [remaining].
      rewrite balance_step by exact Hrem. cbn. ring.
    + cbn [amortize] in Hlast. cbn [last] in Hlast.
      apply (IH (yr + 1)%Z (py_max 0 (rem - (A - rem * r)))).
      * apply balance_step; exact Hrem.
      * exact Hlast.
Qed.

Lemma amortize_remaining_nonneg (count : nat) : forall yr rem,
  Forall (fun row => 0 <= remaining row) (amortize A r count yr rem).
Proof.
  induction count as [|count IH]; intros yr rem; cbn [amortize];
    constructor.
  - cbn [remaining]. apply py_max_0_ge.
  - apply IH.
Qed.

Lemma amortize_non_increasing (count : nat) : forall yr rem,
  rem == A * annuity_factor r count ->
  non_increasing (rem :: map remaining (amortize A r count yr rem)).
Proof.
  induction count as [|count IH]; intros yr rem Hrem.
  - exact I.
  - cbn [amortize map remaining non_increasing]. split.
    + rewrite balance_step by exact Hrem. rewrite Hrem.
      pose proof (annuity_factor_mono r Hr count) as Hm.
      assert (H0 : 0 <= A * (annuity_factor r (S count)
                             - annuity_factor r count))
        by (apply Qmult_le_0_compat; lra).
      lra.
    + apply IH. apply balance_step; exact Hrem.
Qed.
End Amortize.

(** ** C7, C5, C2: the amortization schedule *)

Lemma schedule_guard (debt_amount annual_rate : Q) (years : Z) :
  Qleb debt_amount 0 || Qltb annual_rate 0 || (years <=? 0)%Z = true
  <-> debt_amount <= 0 \/ annual_rate < 0 \/ (years <= 0)%Z.
Proof.
  rewrite !orb_true_iff, Qleb_true, Qltb_true, Z.leb_le. tauto.
Qed.

(** On valid inputs the schedule is the amortization loop run [years]
    times from the debt, under a positive payment whose present value is the
    debt. *)
Lemma schedule_of_valid_inputs (debt_amount annual_rate : Q) (years : Z) :
  0 < debt_amount -> 0 <= annual_rate -> (0 < years)%Z ->
  exists A,
    0 < A /\
    debt_amount == A * annuity_factor annual_rate (Z.to_nat years) /\
    build_amortization_schedule debt_amount annual_rate years
    = Returned (amortize A annual_rate (Z.to_nat years) 1 debt_amount).
Proof.
  intros HD Hr Hn.
  destruct (annual_payment_returns debt_amount annual_rate years HD Hr Hn)
    as [A [HA [Hpos Hpv]]].
  exists A. repeat split; try assumption.
  unfold build_amortization_schedule.
  destruct (Qleb debt_amount 0 || Qltb annual_rate 0 || (years <=? 0)%Z)
    eqn:G.
  - apply schedule_guard in G. destruct G as [G|[G|G]]; [lra | lra | lia].
  - rewrite HA. reflexivity.
Qed.

Lemma non_increasing_tail (a : Q) (l : list Q) :
  non_increasing (a :: l) -> non_increasing l.
Proof. destruct l as [|b l]; [intros _; exact I | intros [_ H]; exact H]. Qed.

(** In exact arithmetic the schedule is empty, and no error is raised,
    exactly when the debt is at most 0, the rate is negative or the term is
    at most 0; on every other input it has [years] rows, numbered 1 to
    [years]. *)
Lemma schedule_empty_or_full_exact (debt_amount annual_rate : Q)
    (years : Z) :
  (build_amortization_schedule debt_amount annual_rate years = Returned []
   <-> debt_amount <= 0 \/ annual_rate < 0 \/ (years <= 0)%Z) /\
  (~ (debt_amount <= 0 \/ annual_rate < 0 \/ (years <= 0)%Z) ->
   exists rows,
     build_amortization_schedule debt_amount annual_rate years
       = Returned rows /\
     Z.of_nat (length rows) = years /\
     forall i row, nth_error rows i = Some row ->
                   year row = (Z.of_nat i + 1)%Z).
Proof.
  assert (Hfull :
    ~ (debt_amount <= 0 \/ annual_rate < 0 \/ (years <= 0)%Z) ->
    exists rows,
      build_amortization_schedule debt_amount annual_rate years
        = Returned rows /\
      Z.of_nat (length rows) = years /\
      forall i row, nth_error rows i = Some row ->
                    year row = (Z.of_nat i + 1)%Z).
  { intros Hvalid.
    assert (HD : 0 < debt_amount) by (apply Qnot_le_lt; tauto).
    assert (Hr : 0 <= annual_rate) by (apply Qnot_lt_le; tauto).
    assert (Hn : (0 < years)%Z) by lia.
    destruct (schedule_of_valid_inputs _ _ _ HD Hr Hn) as [A [_ [_ HA]]].
    eexists. split; [exact HA|]. split.
    - rewrite amortize_length. lia.
    - intros i row Hrow. apply amortize_years in Hrow. lia. }
  split; [|exact Hfull]. split.
  - intros Hempty.
    destruct (Qleb debt_amount 0 || Qltb annual_rate 0 || (years <=? 0)%Z)
      eqn:G; [apply schedule_guard; exact G|].
    assert (Hvalid : ~ (debt_amount <= 0 \/ annual_rate < 0
                        \/ (years <= 0)%Z)).
    { intros H. apply schedule_guard in H. congruence. }
    destruct (Hfull Hvalid) as [rows [Hrows [Hlen _]]].
    rewrite Hempty in Hrows. injection Hrows as <-. cbn in Hlen. lia.
  - intros H. apply schedule_guard in H.
    unfold build_amortization_schedule. rewrite H. reflexivity.
Qed.

Lemma schedule_empty_or_full_exact_example :
  exists rows,
    build_amortization_schedule 1000000 0.03 15 = Returned rows /\
    Z.of_nat (length rows) = 15%Z.
Proof.
  destruct (proj2 (schedule_empty_or_full_exact 1000000 0.03 15))
    as [rows [H [Hlen _]]].
  - intros [H|[H|H]]; [lra | lra | lia].
  - exists rows. split; assumption.
Defined.

(** C7. In binary64 arithmetic the call
    [build_amortization_schedule(1000000.0, 1e-17, 15)] raises
    [ZeroDivisionError], whatever the [pow] of the C library: none of the
    three conditions of an empty schedule holds, the rate is not 0, but
    [1 + r] rounds to [1.0], so [(1 + r) ** -n] is [1.0] and the annuity
    formula divides [r] by [0.0].  The schedule of 15 rows that the
    specification promises for this input is not returned. *)
Theorem C7_schedule_raises_on_tiny_rate (libm_pow : float -> float -> float) :
  build_amortization_schedule_float libm_pow 1000000 rate_1e_17 15
  = Raised ZeroDivisionError.
Proof.
  unfold build_amortization_schedule_float, annual_payment_of_float,
    float_pow, float_div.
  vm_compute. reflexivity.
Qed.

(** The steps of the failure: the rate is positive, yet adding it to 1
    leaves 1. *)
Example tiny_rate_is_absorbed :
  (0 <? rate_1e_17)%float = true /\
  (rate_1e_17 =? 0)%float = false /\
  (1 + rate_1e_17 =? 1)%float = true /\
  (1 - 1 =? 0)%float = true.
Proof. repeat split; reflexivity. Qed.

(** At a rate of exactly 0 the guard on [r == 0] avoids the formula, and the
    rows are returned, in binary64 as in exact arithmetic. *)
Example zero_rate_schedule_float (libm_pow : float -> float -> float) :
  build_amortization_schedule_float libm_pow 1000 0 4
  = Returned
      [mkFloatRow 1 250 0 250 750; mkFloatRow 2 250 0 250 500;
       mkFloatRow 3 250 0 250 250; mkFloatRow 4 250 0 250 0].
Proof. vm_compute. reflexivity. Qed.

(** In exact arithmetic the same call returns its 15 rows. *)
Example tiny_rate_schedule_exact :
  exists rows,
    build_amortization_schedule 1000000 (1 # 100000000000000000) 15
      = Returned rows /\
    length rows = 15%nat.
Proof.
  destruct (schedule_of_valid_inputs 1000000 (1 # 100000000000000000) 15)
    as [A [_ [_ H]]]; [reflexivity | discriminate | lia |].
  eexists. split; [exact H|]. apply amortize_length.
Qed.

(** C5. For a positive debt, a rate of at least 0 and a positive term, the
    schedule is returned, every remaining balance in it is at least 0, and
    the remaining balances never increase from one row to the next (the
    first one is at most the debt). *)
Theorem C5_remaining_non_increasing (debt_amount annual_rate : Q)
    (years : Z) :
  0 < debt_amount -> 0 <= annual_rate -> (0 < years)%Z ->
  exists rows,
    build_amortization_schedule debt_amount annual_rate years
      = Returned rows /\
    Forall (fun row => 0 <= remaining row) rows /\
    non_increasing (map remaining rows) /\
    non_increasing (debt_amount :: map remaining rows).
Proof.
  intros HD Hr Hn.
  destruct (schedule_of_valid_inputs _ _ _ HD Hr Hn) as [A [HA [Hpv Hb]]].
  assert (HA0 : 0 <= A) by lra.
  pose proof (amortize_non_increasing A annual_rate Hr HA0
                (Z.to_nat years) 1 debt_amount Hpv) as Hmono.
  eexists. split; [exact Hb|]. repeat split.
  - apply amortize_remaining_nonneg.
  - apply (non_increasing_tail _ _ Hmono).
  - exact Hmono.
Qed.

Lemma C5_remaining_non_increasing_witness :
  exists rows,
    build_amortization_schedule 1000000 0.03 15 = Returned rows /\
    non_increasing (map remaining rows).
Proof.
  destruct (C5_remaining_non_increasing 1000000 0.03 15)
    as [rows [H [_ [Hm _]]]].
  - reflexivity.
  - discriminate.
  - lia.
  - exists rows. split; assumption.
Defined.

(** C2. For a positive debt, a rate of at least 0 and a positive term, the
    schedule is returned and repays the loan in full: the principal parts of
    its rows add up to the debt, and the remaining balance of its last row
    is 0. *)
Theorem C2_schedule_repays_debt (debt_amount annual_rate : Q) (years : Z) :
  0 < debt_amount -> 0 <= annual_rate -> (0 < years)%Z ->
  exists rows final,
    build_amortization_schedule debt_amount annual_rate years
      = Returned rows /\
    sum_principal rows == debt_amount /\
    last rows = Some final /\
    remaining final == 0.
Proof.
  intros HD Hr Hn.
  destruct (schedule_of_valid_inputs _ _ _ HD Hr Hn) as [A [HA [Hpv Hb]]].
  assert (HA0 : 0 <= A) by lra.
  set (rows := amortize A annual_rate (Z.to_nat years) 1 debt_amount) in *.
  assert (Hlast : is_Some (last rows)).
  { apply last_is_Some. intros E.
    pose proof (amortize_length A annual_rate (Z.to_nat years) 1
                  debt_amount) as Hlen.
    fold rows in Hlen. rewrite E in Hlen. cbn in Hlen. lia. }
  destruct Hlast as [final Hfinal].
  exists rows, final. repeat split.
  - exact Hb.
  - apply (amortize_sum_principal A annual_rate Hr HA0); exact Hpv.
  - exact Hfinal.
  - apply (amortize_last_remaining A annual_rate Hr HA0
             (Z.to_nat years) 1 debt_amount final Hpv Hfinal).
Qed.

Lemma C2_schedule_repays_debt_witness :
  exists rows final,
    build_amortization_schedule 1000000 0.03 15 = Returned rows /\
    sum_principal rows == 1000000 /\
    last rows = Some final /\
    remaining final == 0.
Proof.
  apply (C2_schedule_repays_debt 1000000 0.03 15);
    [reflexivity | discriminate | lia].
Defined.

(** A two-year loan of 1000 at 10%: payments of 12100/21, balances
    11000/21 and 0. *)
Example schedule_example :
  match build_amortization_schedule 1000 0.1 2 with
  | Returned rows =>
      map (fun row => (year row, Qred (payment row), Qred (remaining row)))
        rows
  | Raised _ => []
  end = [(1%Z, 12100 # 21, 11000 # 21); (2%Z, 12100 # 21, 0)].
Proof. vm_compute. reflexivity. Qed.

(** ** The net present value *)

Lemma npv_from_returns (mid : Q) (cashflows : list Q) :
  0 < 1 + mid ->
  forall t acc, exists v, npv_from mid t cashflows acc = Returned v.
Proof.
  intros Hbase. induction cashflows as [|cf rest IH]; intros t acc.
  - exists acc. reflexivity.
  - cbn [npv_from]. rewrite py_pow_nonzero_base by lra. cbn [obind].
    rewrite py_div_nonzero
      by (apply Qpos_neq0, Qpower_0_lt; exact Hbase).
    cbn [obind]. apply IH.
Qed.

Lemma npv_returns (cashflows : list Q) (mid : Q) :
  0 < 1 + mid -> exists v, npv cashflows mid = Returned v.
Proof. intros H. apply npv_from_returns, H. Qed.

(** ** The bisection loop *)

Section Bisection.
Variable cashflows : list Q.
Variable tol : Q.

Lemma bracket_bounds k low high :
  bracket cashflows tol k low high ->
  irr_low <= low /\ low < high /\ high <= irr_high.
Proof.
  induction 1 as [|k low high v _ IH _ _ _|k low high v _ IH _ _ _];
    unfold irr_low, irr_high in *.
  - repeat split; lra.
  - destruct IH as [H1 [H2 H3]]. repeat split; try lra.
    + apply Qle_shift_div_l; lra.
    + apply Qlt_shift_div_r; lra.
  - destruct IH as [H1 [H2 H3]]. repeat split; try lra.
    + apply Qlt_shift_div_l; lra.
    + apply Qle_shift_div_r; lra.
Qed.

(** The midpoint of a search interval lies strictly inside
    [(irr_low, irr_high)], so the discount base [1 + mid] is positive. *)
Lemma bracket_mid k low high :
  bracket cashflows tol k low high ->
  irr_low < (low + high) / 2 < irr_high /\ 0 < 1 + (low + high) / 2.
Proof.
  intros H. apply bracket_bounds in H. revert H.
  unfold irr_low, irr_high. intros [H1 [H2 H3]].
  assert (Hl : -0.9 < (low + high) / 2) by (apply Qlt_shift_div_l; lra).
  assert (Hh : (low + high) / 2 < 1.0) by (apply Qlt_shift_div_r; lra).
  repeat split; lra.
Qed.

(** A loop with turns left returns the midpoint of an interval reached
    without meeting the tolerance: either that midpoint meets it, or it is
    the midpoint of the last turn. *)
Lemma bisection_returns (iters : nat) : forall k low high m,
  bracket cashflows tol k low high ->
  exists k' low' high' v,
    bracket cashflows tol k' low' high' /\
    (k <= k' <= k + iters)%nat /\
    bisection cashflows tol (S iters) low high m
      = Returned (Some ((low' + high') / 2)) /\
    npv cashflows ((low' + high') / 2) = Returned v /\
    (Qabs v < tol \/ (tol <= Qabs v /\ k' = (k + iters)%nat)).
Proof.
  induction iters as [|iters IH]; intros k low high m Hb;
    destruct (bracket_mid k low high Hb) as [_ Hbase];
    destruct (npv_returns cashflows _ Hbase) as [v Hv];
    cbn [bisection]; rewrite Hv; cbn [obind];
    destruct (Qltb (Qabs v) tol) eqn:Etol.
  - apply Qltb_true in Etol. exists k, low, high, v.
    repeat split; try assumption; try lia. left. exact Etol.
  - apply Qltb_false in Etol. exists k, low, high, v.
    repeat split; try assumption; try lia.
    + destruct (Qltb 0 v); reflexivity.
    + right. split; [exact Etol | lia].
  - apply Qltb_true in Etol. exists k, low, high, v.
    repeat split; try assumption; try lia. left. exact Etol.
  - apply Qltb_false in Etol. destruct (Qltb 0 v) eqn:Ev.
    + apply Qltb_true in Ev.
      destruct (IH (S k) _ high (Some ((low + high) / 2))
                  (bracket_raise _ _ k low high v Hb Hv Etol Ev))
        as [k' [low' [high' [v' [Hb' [Hk [Hr [Hv' Hend]]]]]]]].
      exists k', low', high', v'. repeat split; try assumption; try lia.
      destruct Hend as [Hend|[Hend Hk']]; [left; exact Hend|].
      right. split; [exact Hend | lia].
    + apply Qltb_false in Ev.
      destruct (IH (S k) low _ (Some ((low + high) / 2))
                  (bracket_lower _ _ k low high v Hb Hv Etol Ev))
        as [k' [low' [high' [v' [Hb' [Hk [Hr [Hv' Hend]]]]]]]].
      exists k', low', high', v'. repeat split; try assumption; try lia.
      destruct Hend as [Hend|[Hend Hk']]; [left; exact Hend|].
      right. split; [exact Hend | lia].
Qed.

(** The loop never returns [None]. *)
Lemma bisection_not_none (iters : nat) : forall low high m,
  bisection cashflows tol iters low high m <> Returned None.
Proof.
  induction iters as [|iters IH]; intros low high m; cbn [bisection].
  - destruct m; discriminate.
  - destruct (npv cashflows ((low + high) / 2)) as [v|e]; cbn [obind];
      [|discriminate].
    destruct (Qltb (Qabs v) tol); [discriminate|].
    destruct (Qltb 0 v); apply IH.
Qed.
End Bisection.

Lemma no_sign_change_guard (cashflows : list Q) :
  forallb (fun cf => Qleb 0 cf) cashflows
  || forallb (fun cf => Qleb cf 0) cashflows = true
  <-> no_sign_change cashflows.
Proof.
  unfold no_sign_change.
  rewrite orb_true_iff, !forallb_forall, !List.Forall_forall.
  split; (intros [H|H]; [left|right]); intros cf Hcf;
    apply Qleb_true, H, Hcf.
Qed.

(** ** C4: when the internal rate of return is defined *)

(** C4. [compute_irr] returns [None] exactly when the cash flows are all at
    least 0 or all at most 0.  On a series with a sign change, and an
    iteration cap of at least one turn (the default is 1000), it returns a
    number: the midpoint of a search interval reached by bisection, whose
    net present value is within the tolerance, or else the midpoint of the
    last turn allowed by the cap. *)
Theorem C4_irr_none_iff_no_sign_change (cashflows : list Q) (tol : Q)
    (max_iter : nat) :
  (compute_irr cashflows tol max_iter = Returned None
   <-> no_sign_change cashflows) /\
  (~ no_sign_change cashflows -> (0 < max_iter)%nat ->
   exists k low high v,
     bracket cashflows tol k low high /\
     (k < max_iter)%nat /\
     compute_irr cashflows tol max_iter
       = Returned (Some ((low + high) / 2)) /\
     npv cashflows ((low + high) / 2) = Returned v /\
     (Qabs v < tol \/ (tol <= Qabs v /\ S k = max_iter))).
Proof.
  unfold compute_irr.
  destruct (forallb (fun cf => Qleb 0 cf) cashflows
            || forallb (fun cf => Qleb cf 0) cashflows) eqn:G.
  - apply no_sign_change_guard in G. split.
    + split; [intros _; exact G | reflexivity].
    + intros Hsign. contradiction.
  - assert (Hsign : ~ no_sign_change cashflows).
    { intros H. apply no_sign_change_guard in H. congruence. }
    split.
    + split; [|contradiction].
      intros H. exfalso. exact (bisection_not_none _ _ _ _ _ _ H).
    + intros _ Hcap. destruct max_iter as [|iters]; [lia|].
      destruct (bisection_returns cashflows tol iters 0 irr_low irr_high
                  None (bracket_start _ _))
        as [k [low [high [v [Hb [Hk [Hr [Hv Hend]]]]]]]].
      exists k, low, high, v. repeat split; try assumption; try lia.
      destruct Hend as [Hend|[Hend Hk']]; [left; exact Hend|].
      right. split; [exact Hend | lia].
Qed.

Lemma C4_irr_none_iff_no_sign_change_witness :
  exists r,
    compute_irr [-100; 60; 60] default_tol default_max_iter
    = Returned (Some r).
Proof.
  destruct (proj2 (C4_irr_none_iff_no_sign_change
                     [-100; 60; 60] default_tol default_max_iter))
    as [k [low [high [v [_ [_ [H _]]]]]]].
  - intros H. apply no_sign_change_guard in H. discriminate H.
  - unfold default_max_iter. lia.
  - exists ((low + high) / 2). exact H.
Defined.

(** A series without a negative cash flow has no rate of return. *)
Example compute_irr_undefined :
  compute_irr [100; 60; 60] default_tol default_max_iter = Returned None.
Proof. reflexivity. Qed.

(** ** C9: the returned rate stays in the search interval *)

Lemma pow2_succ (k : nat) : 2 ^ Z.of_nat (S k) == 2 * 2 ^ Z.of_nat k.
Proof.
  rewrite Nat2Z.inj_succ. unfold Z.succ.
  rewrite Qpower_plus by discriminate. change (2 ^ 1) with 2. ring.
Qed.

Lemma pow2_pos (k : nat) : 0 < 2 ^ Z.of_nat k.
Proof. apply Qpower_0_lt. reflexivity. Qed.

Section OneSided.
Variable cashflows : list Q.
Variable tol : Q.


End OneSided.

(** A returned rate is the midpoint of a search interval. *)
Lemma compute_irr_some (cashflows : list Q) (tol : Q) (max_iter : nat)
    (r : Q) :
  compute_irr cashflows tol max_iter = Returned (Some r) ->
  exists k low high v,
    bracket cashflows tol k low high /\
    (k < max_iter)%nat /\
    r = (low + high) / 2 /\
    npv cashflows r = Returned v /\
    (Qabs v < tol \/ (tol <= Qabs v /\ S k = max_iter)).
Proof.
  unfold compute_irr.
  destruct (forallb (fun cf => Qleb 0 cf) cashflows
            || forallb (fun cf => Qleb cf 0) cashflows); [discriminate|].
  destruct max_iter as [|iters]; [discriminate|]. intros Hret.
  destruct (bisection_returns cashflows tol iters 0 irr_low irr_high
              None (bracket_start _ _))
    as [k [low [high [v [Hb [Hk [Hr [Hv Hend]]]]]]]].
  rewrite Hr in Hret. injection Hret as <-.
  exists k, low, high, v. repeat split; try assumption; try lia.
  destruct Hend as [Hend|[Hend Hk']]; [left; exact Hend|].
  right. split; [exact Hend | lia].
Qed.




(** Under a cap of four turns the example returns 1 - 1.9/16. *)
Example irr_example_value : irr_example == 0.88125.
Proof. reflexivity. Qed.

(** Under a cap of twenty turns it returns 1 - 1.9/2^20, still not the
    rate of return 2. *)
Example irr_example_twenty_turns :
  match compute_irr cashflows_example default_tol 20 with
  | Returned (Some r) => Qeq_bool r (1 - 1.9 / 2 ^ 20)
  | _ => false
  end = true.
Proof. vm_compute. reflexivity. Qed.

(** * Further properties of the engine *)

(** ** The blended rate as an average *)

Lemma rate_as_weighted_sum (p : SeasonPricing) :
  0 < total_share p ->
  equivalent_nightly_rate p == weighted_sum p / total_share p.
Proof.
  unfold total_share, weighted_sum, equivalent_nightly_rate. intros HT.
  rewrite (proj2 (Qleb_false _ _) HT). rewrite !tenor_guard. field.
  apply Qpos_neq0, HT.
Qed.

Lemma weighted_sum_bounds (p : SeasonPricing) (lo hi : Q) :
  0 <= share_nightly p -> 0 <= share_weekly p -> 0 <= share_monthly p ->
  lo <= price_per_night p <= hi ->
  lo <= price_per_week p / 7 <= hi ->
  lo <= price_per_month p / 30 <= hi ->
  lo * total_share p <= weighted_sum p <= hi * total_share p.
Proof.
  unfold total_share, weighted_sum.
  intros Hn Hw Hm [Hn1 Hn2] [Hw1 Hw2] [Hm1 Hm2].
  assert (A1 : 0 <= share_nightly p * (price_per_night p - lo))
    by (apply Qmult_le_0_compat; lra).
  assert (A2 : 0 <= share_weekly p * (price_per_week p / 7 - lo))
    by (apply Qmult_le_0_compat; lra).
  assert (A3 : 0 <= share_monthly p * (price_per_month p / 30 - lo))
    by (apply Qmult_le_0_compat; lra).
  assert (B1 : 0 <= share_nightly p * (hi - price_per_night p))
    by (apply Qmult_le_0_compat; lra).
  assert (B2 : 0 <= share_weekly p * (hi - price_per_week p / 7))
    by (apply Qmult_le_0_compat; lra).
  assert (B3 : 0 <= share_monthly p * (hi - price_per_month p / 30))
    by (apply Qmult_le_0_compat; lra).
  split; lra.
Qed.

(** X1. The blended rate is a weighted average of the three nightly
    equivalents: with non-negative shares of positive total it lies between
    any bounds that hold for the nightly price, the weekly price over 7 and
    the monthly price over 30. *)
Theorem equivalent_nightly_rate_between (p : SeasonPricing) (lo hi : Q) :
  0 <= share_nightly p -> 0 <= share_weekly p -> 0 <= share_monthly p ->
  0 < total_share p ->
  lo <= price_per_night p <= hi ->
  lo <= price_per_week p / 7 <= hi ->
  lo <= price_per_month p / 30 <= hi ->
  lo <= equivalent_nightly_rate p <= hi.
Proof.
  intros Hn Hw Hm HT Bn Bw Bm.
  rewrite (rate_as_weighted_sum p HT).
  destruct (weighted_sum_bounds p lo hi Hn Hw Hm Bn Bw Bm) as [Hlo Hhi].
  split.
  - apply Qle_shift_div_l; assumption.
  - apply Qle_shift_div_r; assumption.
Qed.

Lemma equivalent_nightly_rate_between_witness :
  0 <= equivalent_nightly_rate pricing_example <= 150.
Proof.
  apply (equivalent_nightly_rate_between pricing_example 0 150);
    try (split; discriminate); try discriminate; reflexivity.
Defined.

Lemma rate_scale_pricing (f : Q) (p : SeasonPricing) :
  equivalent_nightly_rate (scale_pricing f p)
  == f * equivalent_nightly_rate p.
Proof.
  unfold equivalent_nightly_rate, scale_pricing.
  cbn [share_nightly share_weekly share_monthly price_per_night
       price_per_week price_per_month].
  destruct (Qleb (share_nightly p + share_weekly p + share_monthly p) 0)
    eqn:E.
  - ring.
  - apply Qleb_false in E. rewrite !tenor_guard. field.
    apply Qpos_neq0, E.
Qed.

Lemma nonneg_rate (p : SeasonPricing) :
  nonneg_pricing p -> 0 <= equivalent_nightly_rate p.
Proof.
  intros (Hn & Hw & Hm & Sn & Sw & Sm).
  destruct (Qlt_le_dec 0 (total_share p)) as [HT|HT].
  - assert (Hw7 : 0 <= price_per_week p / 7)
      by (apply Qle_shift_div_l; lra).
    assert (Hm30 : 0 <= price_per_month p / 30)
      by (apply Qle_shift_div_l; lra).
    set (hi := price_per_night p + price_per_week p / 7
               + price_per_month p / 30).
    rewrite (rate_as_weighted_sum p HT).
    destruct (weighted_sum_bounds p 0 hi Sn Sw Sm) as [Hlo _];
      unfold hi; try (split; lra).
    apply Qle_shift_div_l; assumption.
  - unfold equivalent_nightly_rate. fold (total_share p).
    rewrite (proj2 (Qleb_true _ _) HT). lra.
Qed.

(** ** Revenue as a double sum *)

Lemma Qsum_cons (x : Q) (l : list Q) : Qsum (x :: l) = x + Qsum l.
Proof. reflexivity. Qed.

Lemma Qsum_nil : Qsum [] = 0.
Proof. reflexivity. Qed.

Lemma Qsum_app (l1 l2 : list Q) : Qsum (l1 ++ l2) == Qsum l1 + Qsum l2.
Proof.
  induction l1 as [|x l1 IH]; cbn [app].
  - rewrite Qsum_nil. ring.
  - rewrite !Qsum_cons, IH. ring.
Qed.

Lemma Qsum_map_ext {A} (f g : A -> Q) (l : list A) :
  (forall x, In x l -> f x == g x) -> Qsum (map f l) == Qsum (map g l).
Proof.
  induction l as [|x l IH]; intros H; cbn [map].
  - reflexivity.
  - rewrite !Qsum_cons, (H x (or_introl eq_refl)), IH; [reflexivity|].
    intros y Hy. apply H. right. exact Hy.
Qed.

Lemma Qsum_map_scale {A} (c : Q) (f : A -> Q) (l : list A) :
  Qsum (map (fun x => c * f x) l) == c * Qsum (map f l).
Proof.
  induction l as [|x l IH]; cbn [map].
  - rewrite Qsum_nil. ring.
  - rewrite !Qsum_cons, IH. ring.
Qed.

Lemma Qsum_nonneg (l : list Q) : Forall (fun x => 0 <= x) l -> 0 <= Qsum l.
Proof.
  induction 1 as [|x l Hx _ IH]; [rewrite Qsum_nil; lra|].
  rewrite Qsum_cons. lra.
Qed.

Lemma room_step_revenue (season : Season) st item :
  fst (room_step season st item) == fst st + item_revenue season item.
Proof.
  destruct st as [rev bd], item as [k rt]. unfold room_step, item_revenue.
  cbn [fst snd]. destruct (pricing season !! k); cbn [fst]; ring.
Qed.

Lemma room_fold_revenue (season : Season) (room_types : odict RoomType) :
  forall st,
    fst (fold_left (room_step season) room_types st)
    == fst st + Qsum (map (item_revenue season) room_types).
Proof.
  induction room_types as [|item rts IH]; intros st; cbn [fold_left map].
  - rewrite Qsum_nil. ring.
  - rewrite Qsum_cons, IH, room_step_revenue. ring.
Qed.

Lemma season_revenue_sum (room_types : odict RoomType) (season : Season) :
  sr_revenue (season_result room_types season)
  == Qsum (map (item_revenue season) room_types).
Proof.
  unfold season_result.
  pose proof (room_fold_revenue season room_types (0, [])) as H.
  destruct (fold_left (room_step season) room_types (0, [])) as [rev bd].
  cbn [fst sr_revenue] in *. rewrite H. ring.
Qed.

Lemma season_fold_total (room_types : odict RoomType)
    (seasons : list Season) :
  forall results,
    total_revenue (fold_left (season_step room_types) seasons results)
    == total_revenue results
       + Qsum (map (fun s => Qsum (map (item_revenue s) room_types))
                 seasons).
Proof.
  induction seasons as [|s seasons IH]; intros results;
    cbn [fold_left map].
  - rewrite Qsum_nil. ring.
  - rewrite Qsum_cons, IH. unfold season_step. cbn [total_revenue].
    rewrite season_revenue_sum. ring.
Qed.

Lemma total_revenue_sum (room_types : odict RoomType)
    (seasons : list Season) :
  total_revenue (simulate_annual_revenue room_types seasons)
  == Qsum (map (fun s => Qsum (map (item_revenue s) room_types)) seasons).
Proof.
  unfold simulate_annual_revenue. rewrite season_fold_total.
  cbn [total_revenue]. ring.
Qed.

(** X2. The annual revenue is the sum, over the seasons and the room types of
    the inventory, of rooms x days x occupancy x blended rate, a room type
    the season does not price counting for nothing; the revenue recorded for
    a season is its part of that sum. *)
Theorem total_revenue_is_double_sum (room_types : odict RoomType)
    (seasons : list Season) :
  total_revenue (simulate_annual_revenue room_types seasons)
  == Qsum (map (fun s => Qsum (map (item_revenue s) room_types)) seasons) /\
  total_revenue (simulate_annual_revenue room_types seasons)
  == Qsum (map (fun s => sr_revenue (season_result room_types s)) seasons).
Proof.
  split; [apply total_revenue_sum|].
  rewrite total_revenue_sum. apply Qsum_map_ext.
  intros s _. symmetry. apply season_revenue_sum.
Qed.

Lemma item_revenue_price_factor (o f c : Q) (base : string * SeasonBase)
    (item : string * RoomType) :
  item_revenue (scenario_season (mkScenarioFactors o f c) base) item
  == f * item_revenue (scenario_season (mkScenarioFactors o 1 c) base) item.
Proof.
  destruct base as [name cfg]. unfold item_revenue, scenario_season.
  cbn [pricing occupancy days price_factor occ_factor].
  rewrite !lookup_fmap.
  destruct (pricing_base cfg !! fst item) as [pb|]; cbn [fmap option_fmap
    option_map]; [|ring].
  rewrite (rate_scale_pricing f pb), (rate_scale_pricing 1 pb). ring.
Qed.

(** X7. The annual revenue of a scenario is proportional to its price factor:
    with the same occupancy factor, the revenue under price factor [f] is
    [f] times the revenue under price factor 1.  The cost factor plays no
    part in it. *)
Theorem revenue_proportional_to_price_factor (room_types : odict RoomType)
    (seasons_base_config : odict SeasonBase) (o f c c' : Q) :
  total_revenue
    (simulate_annual_revenue room_types
       (scenario_seasons (mkScenarioFactors o f c) seasons_base_config))
  == f * total_revenue
           (simulate_annual_revenue room_types
              (scenario_seasons (mkScenarioFactors o 1 c')
                 seasons_base_config)).
Proof.
  rewrite !total_revenue_sum. unfold scenario_seasons.
  rewrite !map_map, <- Qsum_map_scale. apply Qsum_map_ext.
  intros base _. rewrite <- Qsum_map_scale. apply Qsum_map_ext.
  intros item _.
  rewrite (item_revenue_price_factor o f c base item).
  destruct base as [name cfg]. reflexivity.
Qed.

Lemma item_revenue_nonneg (season : Season) (item : string * RoomType) :
  nonneg_season season -> (0 <= rt_count (snd item))%Z ->
  0 <= item_revenue season item.
Proof.
  intros (Hd & Ho & Hp) Hc. unfold item_revenue.
  destruct (pricing season !! fst item) as [p|] eqn:Ep; [|lra].
  apply Qmult_le_0_compat; [apply Qmult_le_0_compat|].
  - change 0 with (inject_Z 0). rewrite <- Zle_Qle. lia.
  - destruct (occupancy season !! fst item) as [v|] eqn:Eo; cbn [default].
    + apply (Ho _ _ Eo).
    + lra.
  - apply nonneg_rate, (Hp _ _ Ep).
Qed.

(** X5. With non-negative room counts, season lengths, occupancies, prices and
    shares, the annual revenue is non-negative. *)
Theorem total_revenue_nonneg (room_types : odict RoomType)
    (seasons : list Season) :
  Forall (fun item => (0 <= rt_count (snd item))%Z) room_types ->
  Forall nonneg_season seasons ->
  0 <= total_revenue (simulate_annual_revenue room_types seasons).
Proof.
  intros Hrt Hs. rewrite total_revenue_sum. apply Qsum_nonneg.
  apply List.Forall_forall. intros x Hx. apply in_map_iff in Hx.
  destruct Hx as [s [<- Hin]]. apply Qsum_nonneg.
  apply List.Forall_forall. intros y Hy. apply in_map_iff in Hy.
  destruct Hy as [item [<- Hitem]]. apply item_revenue_nonneg.
  - apply (proj1 (List.Forall_forall _ _) Hs _ Hin).
  - apply (proj1 (List.Forall_forall _ _) Hrt _ Hitem).
Qed.

(** ** The shape of the revenue breakdown *)

Lemma od_set_fresh {V} (d : odict V) k v :
  od_get d k = None -> od_set d k v = d ++ [(k, v)].
Proof.
  induction d as [|[k' v'] d IH]; cbn; [reflexivity|].
  destruct (String.eqb k' k); [discriminate|].
  intros H. rewrite IH by exact H. reflexivity.
Qed.

Lemma room_step_breakdown (season : Season) rev bd k rt :
  od_get bd k = None ->
  map fst (snd (room_step season (rev, bd) (k, rt)))
  = map fst bd ++ (if priced season k then [k] else []) /\
  Qsum (map (fun e => rb_revenue (snd e))
          (snd (room_step season (rev, bd) (k, rt))))
  == Qsum (map (fun e => rb_revenue (snd e)) bd)
     + item_revenue season (k, rt) /\
  (forall k', k' <> k ->
     od_get (snd (room_step season (rev, bd) (k, rt))) k' = od_get bd k').
Proof.
  intros Hfresh. unfold room_step, priced, item_revenue. cbn [fst snd].
  destruct (pricing season !! k) as [p|]; cbn [snd].
  - rewrite (od_set_fresh bd k) by exact Hfresh. repeat split.
    + rewrite map_app. reflexivity.
    + rewrite map_app, Qsum_app. cbn [map snd rb_revenue].
      rewrite Qsum_cons, Qsum_nil. ring.
    + intros k' Hk'. rewrite <- (od_set_fresh bd k) by exact Hfresh.
      apply od_get_set_ne. congruence.
  - rewrite app_nil_r. repeat split. ring.
Qed.

Lemma room_fold_breakdown (season : Season) (room_types : odict RoomType) :
  List.NoDup (map fst room_types) ->
  forall st,
    (forall k, In k (map fst room_types) -> od_get (snd st) k = None) ->
    map fst (snd (fold_left (room_step season) room_types st))
    = map fst (snd st) ++ List.filter (priced season) (map fst room_types) /\
    Qsum (map (fun e => rb_revenue (snd e))
            (snd (fold_left (room_step season) room_types st)))
    == Qsum (map (fun e => rb_revenue (snd e)) (snd st))
       + Qsum (map (item_revenue season) room_types).
Proof.
  induction room_types as [|[k rt] rts IH]; intros Hnd st Hfresh.
  - cbn [fold_left map List.filter]. rewrite app_nil_r, Qsum_nil.
    split; [reflexivity | ring].
  - cbn [map fst] in Hnd. apply List.NoDup_cons_iff in Hnd.
    destruct Hnd as [Hk Hnd]. destruct st as [rev bd]. cbn [snd] in *.
    destruct (room_step_breakdown season rev bd k rt)
      as [Sk [Ss Sg]]; [apply Hfresh; left; reflexivity|].
    cbn [fold_left map List.filter fst].
    destruct (IH Hnd (room_step season (rev, bd) (k, rt))) as [IHk IHs].
    { intros k' Hk'. rewrite Sg by (intros ->; contradiction).
      apply Hfresh. right. exact Hk'. }
    rewrite IHk, IHs, Sk, Ss, Qsum_cons. split; [|ring].
    rewrite <- app_assoc. destruct (priced season k); reflexivity.
Qed.

(** X3. With distinct room-type names (the keys of a [dict]), the breakdown of
    a season lists exactly the room types the season prices, in the order of
    the inventory, and the revenues of its entries add up to the revenue
    recorded for the season. *)
Theorem breakdown_lists_priced_room_types (room_types : odict RoomType)
    (season : Season) :
  List.NoDup (map fst room_types) ->
  map fst (by_room_type (season_result room_types season))
  = List.filter (priced season) (map fst room_types) /\
  Qsum (map (fun e => rb_revenue (snd e))
          (by_room_type (season_result room_types season)))
  == sr_revenue (season_result room_types season).
Proof.
  intros Hnd. rewrite season_revenue_sum, by_room_type_fold.
  destruct (room_fold_breakdown season room_types Hnd (0, []))
    as [Hk Hs]; [reflexivity|].
  cbn [snd map app] in Hk, Hs. rewrite Qsum_nil in Hs.
  split; [exact Hk|]. rewrite Hs. ring.
Qed.

Lemma season_fold_order (room_types : odict RoomType)
    (seasons : list Season) :
  List.NoDup (map season_name seasons) ->
  forall results,
    (forall s, In s seasons ->
               od_get (per_season results) (season_name s) = None) ->
    per_season (fold_left (season_step room_types) seasons results)
    = per_season results
      ++ map (fun s => (season_name s, season_result room_types s)) seasons.
Proof.
  induction seasons as [|s seasons IH]; intros Hnd results Hfresh.
  - cbn [fold_left map]. rewrite app_nil_r. reflexivity.
  - cbn [map] in Hnd. apply List.NoDup_cons_iff in Hnd.
    destruct Hnd as [Hs Hnd]. cbn [fold_left map].
    rewrite IH; [|exact Hnd|].
    + unfold season_step. cbn [per_season].
      rewrite od_set_fresh by (apply Hfresh; left; reflexivity).
      rewrite <- app_assoc. reflexivity.
    + intros s' Hs'. unfold season_step. cbn [per_season].
      rewrite od_get_set_ne.
      * apply Hfresh. right. exact Hs'.
      * intros E. apply Hs. rewrite E. apply in_map, Hs'.
Qed.

(** X4. With distinct season names, the per-season output keeps the order of
    the seasons: it is the list of the seasons' names, each with the result
    of its own season. *)
Theorem per_season_keeps_order (room_types : odict RoomType)
    (seasons : list Season) :
  List.NoDup (map season_name seasons) ->
  per_season (simulate_annual_revenue room_types seasons)
  = map (fun s => (season_name s, season_result room_types s)) seasons.
Proof.
  intros Hnd. unfold simulate_annual_revenue.
  rewrite season_fold_order; [reflexivity | exact Hnd |].
  intros s _. reflexivity.
Qed.

(** ** The rows of the amortization schedule *)

Lemma annuity_factor_rate_lt1 (r : Q) (j : nat) :
  0 <= r -> r * annuity_factor r j < 1.
Proof.
  intros Hr. induction j as [|j IH]; cbn [annuity_factor]; [lra|].
  assert (E : r * ((1 + annuity_factor r j) / (1 + r))
              == (r + r * annuity_factor r j) / (1 + r))
    by (field; lra).
  rewrite E. apply Qlt_shift_div_r; lra.
Qed.

Section AmortizeRows.
Variables A r : Q.
Hypothesis Hr : 0 <= r.
Hypothesis HA : 0 < A.

Lemma principal_positive (rem : Q) (j : nat) :
  rem == A * annuity_factor r j -> 0 < A - rem * r.
Proof.
  intros Hrem. rewrite Hrem.
  assert (E : A - A * annuity_factor r j * r
              == A * (1 - r * annuity_factor r j)) by ring.
  rewrite E. apply Qmult_lt_0_compat; [exact HA|].
  pose proof (annuity_factor_rate_lt1 r j Hr). lra.
Qed.

Lemma amortize_chain (count : nat) : forall yr rem,
  rem == A * annuity_factor r count ->
  rows_chain
    (fun before row =>
       interest row = before * r /\
       remaining row == before - principal row /\
       0 < principal row /\
       remaining row < before)
    rem (amortize A r count yr rem).
Proof.
  induction count as [|count IH]; intros yr rem Hrem; [exact I|].
  cbn [amortize rows_chain interest principal remaining].
  assert (HA0 : 0 <= A) by lra.
  pose proof (balance_step A r Hr HA0 rem count Hrem) as Hb.
  pose proof (annuity_step r Hr A rem count Hrem) as Hs.
  pose proof (principal_positive rem (S count) Hrem) as Hp.
  repeat split.
  - rewrite Hb, Hs. reflexivity.
  - exact Hp.
  - rewrite Hb, <- Hs. lra.
  - apply IH. exact Hb.
Qed.

Lemma amortize_principal_growth (count : nat) : forall yr rem,
  rem == A * annuity_factor r count ->
  consecutive (fun a b => principal b == principal a * (1 + r))
    (amortize A r count yr rem).
Proof.
  induction count as [|count IH]; intros yr rem Hrem; [exact I|].
  assert (HA0 : 0 <= A) by lra.
  pose proof (balance_step A r Hr HA0 rem count Hrem) as Hb.
  pose proof (annuity_step r Hr A rem count Hrem) as Hs.
  specialize (IH (yr + 1)%Z _ Hb).
  cbn [amortize]. cbn [amortize] in IH.
  destruct count as [|count]; [exact I|].
  cbn [amortize consecutive principal] in *. split; [|exact IH].
  rewrite Hb, <- Hs. ring.
Qed.

Lemma amortize_payment (count : nat) : forall yr rem,
  Forall (fun row => payment row = A /\
                     interest row + principal row == payment row)
    (amortize A r count yr rem).
Proof.
  induction count as [|count IH]; intros yr rem; cbn [amortize];
    constructor.
  - cbn [payment interest principal]. split; [reflexivity | ring].
  - apply IH.
Qed.

Lemma amortize_sum_interest (count : nat) : forall yr rem,
  Qsum (map interest (amortize A r count yr rem))
  + sum_principal (amortize A r count yr rem)
  == inject_Z (Z.of_nat count) * A.
Proof.
  induction count as [|count IH]; intros yr rem.
  - cbn. ring.
  - cbn [amortize map sum_principal fold_right interest principal].
    rewrite Qsum_cons.
    fold (sum_principal
            (amortize A r count (yr + 1) (py_max 0 (rem - (A - rem * r))))).
    rewrite Nat2Z.inj_succ. unfold Z.succ. rewrite inject_Z_plus.
    specialize (IH (yr + 1)%Z (py_max 0 (rem - (A - rem * r)))).
    change (inject_Z 1) with 1. lra.
Qed.
End AmortizeRows.

Lemma rows_chain_impl (P P' : Q -> AmortizationRow -> Prop) rows :
  (forall before row, P before row -> P' before row) ->
  forall start, rows_chain P start rows -> rows_chain P' start rows.
Proof.
  intros HPP'. induction rows as [|row rows IH]; intros start; [trivial|].
  cbn [rows_chain]. intros [H1 H2]. split; [apply HPP', H1 | apply IH, H2].
Qed.

Lemma rows_chain_Forall (P : Q -> AmortizationRow -> Prop)
    (P' : AmortizationRow -> Prop) rows :
  (forall before row, P before row -> P' row) ->
  forall start, rows_chain P start rows -> Forall P' rows.
Proof.
  intros HPP'. induction rows as [|row rows IH]; intros start;
    [constructor|].
  cbn [rows_chain]. intros [H1 H2]. constructor.
  - apply (HPP' _ _ H1).
  - apply (IH _ H2).
Qed.

(** X9. For a positive debt, a rate of at least 0 and a positive term: every
    row carries the same positive payment, split into interest and
    principal; the interest is the rate times the balance before the row
    (the debt for the first row), and the balance after the row is the
    balance before it less the principal: the floor at 0 never applies. *)
Theorem schedule_rows_split_payment (debt_amount annual_rate : Q)
    (years : Z) :
  0 < debt_amount -> 0 <= annual_rate -> (0 < years)%Z ->
  exists rows A,
    build_amortization_schedule debt_amount annual_rate years
      = Returned rows /\
    0 < A /\
    Forall (fun row => payment row = A /\
                       interest row + principal row == payment row) rows /\
    rows_chain
      (fun before row =>
         interest row = before * annual_rate /\
         remaining row == before - principal row)
      debt_amount rows.
Proof.
  intros HD Hr Hn.
  destruct (schedule_of_valid_inputs _ _ _ HD Hr Hn) as [A [HA [Hpv Hb]]].
  eexists _, A. split; [exact Hb|]. split; [exact HA|]. split.
  - apply amortize_payment.
  - eapply rows_chain_impl; [|apply amortize_chain; assumption].
    cbv beta. intros before row (H1 & H2 & _). split; assumption.
Qed.

Lemma schedule_rows_split_payment_witness :
  exists rows A,
    build_amortization_schedule 1000000 0.03 15 = Returned rows /\ 0 < A.
Proof.
  destruct (schedule_rows_split_payment 1000000 0.03 15)
    as [rows [A [H [HA _]]]]; [reflexivity | discriminate | lia |].
  exists rows, A. split; assumption.
Defined.

(** X10. On the same inputs every principal part is strictly positive and every
    row strictly lowers the balance: the payment always exceeds the
    interest due. *)
Theorem schedule_principal_positive (debt_amount annual_rate : Q)
    (years : Z) :
  0 < debt_amount -> 0 <= annual_rate -> (0 < years)%Z ->
  exists rows,
    build_amortization_schedule debt_amount annual_rate years
      = Returned rows /\
    rows_chain
      (fun before row => 0 < principal row /\ remaining row < before)
      debt_amount rows.
Proof.
  intros HD Hr Hn.
  destruct (schedule_of_valid_inputs _ _ _ HD Hr Hn) as [A [HA [Hpv Hb]]].
  eexists. split; [exact Hb|].
  eapply rows_chain_impl; [|apply amortize_chain; assumption].
  cbv beta. intros before row (_ & _ & H). exact H.
Qed.

Lemma schedule_principal_positive_witness :
  exists rows,
    build_amortization_schedule 1000000 0.03 15 = Returned rows /\
    rows_chain
      (fun before row => 0 < principal row /\ remaining row < before)
      1000000 rows.
Proof.
  apply (schedule_principal_positive 1000000 0.03 15);
    [reflexivity | discriminate | lia].
Defined.

(** X11. On the same inputs the principal part grows by the factor
    [1 + annual_rate] from each row to the next. *)
Theorem schedule_principal_growth (debt_amount annual_rate : Q)
    (years : Z) :
  0 < debt_amount -> 0 <= annual_rate -> (0 < years)%Z ->
  exists rows,
    build_amortization_schedule debt_amount annual_rate years
      = Returned rows /\
    consecutive
      (fun a b => principal b == principal a * (1 + annual_rate)) rows.
Proof.
  intros HD Hr Hn.
  destruct (schedule_of_valid_inputs _ _ _ HD Hr Hn) as [A [HA [Hpv Hb]]].
  eexists. split; [exact Hb|].
  apply amortize_principal_growth; assumption.
Qed.

Lemma schedule_principal_growth_witness :
  exists rows,
    build_amortization_schedule 1000000 0.03 15 = Returned rows /\
    consecutive (fun a b => principal b == principal a * (1 + 0.03)) rows.
Proof.
  apply (schedule_principal_growth 1000000 0.03 15);
    [reflexivity | discriminate | lia].
Defined.

(** X12. At a zero rate the loan is repaid in straight line: in every row the
    payment and the principal are the debt over the term and the interest
    is 0. *)
Theorem schedule_zero_rate (debt_amount annual_rate : Q) (years : Z) :
  0 < debt_amount -> annual_rate == 0 -> (0 < years)%Z ->
  exists rows,
    build_amortization_schedule debt_amount annual_rate years
      = Returned rows /\
    Forall (fun row =>
              payment row == debt_amount / inject_Z years /\
              interest row == 0 /\
              principal row == debt_amount / inject_Z years) rows.
Proof.
  intros HD Hz Hn. assert (Hr : 0 <= annual_rate) by lra.
  destruct (schedule_of_valid_inputs _ _ _ HD Hr Hn) as [A [HA [Hpv Hb]]].
  eexists. split; [exact Hb|].
  pose proof (inject_Z_pos years Hn) as Hnq.
  assert (HAn : A == debt_amount / inject_Z years).
  { rewrite Hpv, (annuity_factor_zero_rate annual_rate _ Hz).
    rewrite Z2Nat.id by lia. field. apply Qpos_neq0, Hnq. }
  pose proof (amortize_payment A annual_rate (Z.to_nat years) 1 debt_amount)
    as Hpay.
  pose proof (amortize_chain A annual_rate Hr HA (Z.to_nat years) 1
                debt_amount Hpv) as Hchain.
  apply (rows_chain_Forall _ (fun row => interest row == 0)) in Hchain.
  - rewrite List.Forall_forall in *. intros row Hrow.
    destruct (Hpay row Hrow) as [Hp Hsplit]. specialize (Hchain row Hrow).
    rewrite Hp in *. repeat split; lra.
  - intros before row [Hi _]. rewrite Hi, Hz. ring.
Qed.

Lemma schedule_zero_rate_witness :
  exists rows,
    build_amortization_schedule 1000 0 4 = Returned rows /\
    Forall (fun row =>
              payment row == 1000 / inject_Z 4 /\
              interest row == 0 /\
              principal row == 1000 / inject_Z 4) rows.
Proof.
  apply (schedule_zero_rate 1000 0 4); [reflexivity | reflexivity | lia].
Defined.

(** X13. The interest paid over the life of the loan is the sum of the payments
    less the debt. *)
Theorem schedule_total_interest (debt_amount annual_rate : Q) (years : Z) :
  0 < debt_amount -> 0 <= annual_rate -> (0 < years)%Z ->
  exists rows A,
    build_amortization_schedule debt_amount annual_rate years
      = Returned rows /\
    Forall (fun row => payment row = A) rows /\
    Qsum (map interest rows) == inject_Z years * A - debt_amount.
Proof.
  intros HD Hr Hn.
  destruct (schedule_of_valid_inputs _ _ _ HD Hr Hn) as [A [HA [Hpv Hb]]].
  assert (HA0 : 0 <= A) by lra.
  eexists _, A. split; [exact Hb|]. split.
  - eapply List.Forall_impl; [|apply amortize_payment].
    intros row [H _]. exact H.
  - pose proof (amortize_sum_interest A annual_rate (Z.to_nat years) 1
                  debt_amount) as Hsum.
    rewrite (amortize_sum_principal A annual_rate Hr HA0 _ _ _ Hpv) in Hsum.
    rewrite Z2Nat.id in Hsum by lia. lra.
Qed.

Lemma schedule_total_interest_witness :
  exists rows A,
    build_amortization_schedule 1000000 0.03 15 = Returned rows /\
    Forall (fun row => payment row = A) rows /\
    Qsum (map interest rows) == inject_Z 15 * A - 1000000.
Proof.
  apply (schedule_total_interest 1000000 0.03 15);
    [reflexivity | discriminate | lia].
Defined.

Lemma schedule_always_returns (debt_amount annual_rate : Q) (years : Z) :
  exists rows,
    build_amortization_schedule debt_amount annual_rate years
    = Returned rows.
Proof.
  destruct (Qleb debt_amount 0 || Qltb annual_rate 0 || (years <=? 0)%Z)
    eqn:G.
  - exists []. unfold build_amortization_schedule. rewrite G. reflexivity.
  - assert (Hv : ~ (debt_amount <= 0 \/ annual_rate < 0 \/ (years <= 0)%Z)).
    { intros H. apply schedule_guard in H. congruence. }
    assert (HD : 0 < debt_amount) by (apply Qnot_le_lt; tauto).
    assert (Hr : 0 <= annual_rate) by (apply Qnot_lt_le; tauto).
    assert (Hn : (0 < years)%Z) by lia.
    destruct (schedule_of_valid_inputs _ _ _ HD Hr Hn) as [A [_ [_ HA]]].
    eexists. exact HA.
Qed.

(** ** More on the bisection *)

(** X14. A series of fewer than two cash flows cannot change sign: the rate is
    undefined, whatever the tolerance and the cap. *)
Theorem compute_irr_short_series (cashflows : list Q) (tol : Q)
    (max_iter : nat) :
  (length cashflows <= 1)%nat ->
  compute_irr cashflows tol max_iter = Returned None.
Proof.
  intros Hlen. destruct cashflows as [|cf [|cf' rest]].
  - reflexivity.
  - unfold compute_irr. cbn [forallb]. rewrite !andb_true_r.
    destruct (Qleb 0 cf) eqn:E; [reflexivity|].
    apply Qleb_false in E.
    rewrite (proj2 (Qleb_true cf 0)) by lra. reflexivity.
  - cbn [length] in Hlen. lia.
Qed.

Lemma compute_irr_short_series_witness :
  compute_irr [-100] default_tol default_max_iter = Returned None.
Proof. apply compute_irr_short_series. cbn. lia. Defined.

Section BracketInvariant.
Variable cashflows : list Q.
Variable tol : Q.

Lemma bracket_width k low high :
  bracket cashflows tol k low high ->
  high - low == (irr_high - irr_low) / 2 ^ Z.of_nat k.
Proof.
  induction 1 as [|k low high v _ IH _ _ _|k low high v _ IH _ _ _].
  - change (2 ^ Z.of_nat 0) with 1. field.
  - rewrite pow2_succ. pose proof (pow2_pos k) as Hp.
    assert (E : high - (low + high) / 2 == (high - low) / 2) by field.
    rewrite E, IH. field. lra.
  - rewrite pow2_succ. pose proof (pow2_pos k) as Hp.
    assert (E : (low + high) / 2 - low == (high - low) / 2) by field.
    rewrite E, IH. field. lra.
Qed.

Lemma bracket_signs k low high :
  bracket cashflows tol k low high ->
  (low = irr_low \/
   exists v, npv cashflows low = Returned v /\ 0 < v) /\
  (high = irr_high \/
   exists v, npv cashflows high = Returned v /\ v <= 0).
Proof.
  induction 1 as [|k low high v _ [IHl IHh] Hv _ Hpos
                  |k low high v _ [IHl IHh] Hv _ Hneg].
  - split; left; reflexivity.
  - split; [right; exists v; split; assumption | exact IHh].
  - split; [exact IHl | right; exists v; split; assumption].
Qed.
End BracketInvariant.

(** X15. A returned rate is the midpoint of an interval [low, high] inside the
    search interval, of width [1.9 / 2^k] after [k] narrowing turns
    ([k] below the cap); the net present value is positive at [low] unless
    [low] is still -0.9, and at most 0 at [high] unless [high] is still
    1.0. *)
Theorem compute_irr_bracketed (cashflows : list Q) (tol : Q)
    (max_iter : nat) (r : Q) :
  compute_irr cashflows tol max_iter = Returned (Some r) ->
  exists k low high,
    (k < max_iter)%nat /\
    r = (low + high) / 2 /\
    irr_low <= low /\ low < r /\ r < high /\ high <= irr_high /\
    high - low == (irr_high - irr_low) / 2 ^ Z.of_nat k /\
    (low = irr_low \/
     exists v, npv cashflows low = Returned v /\ 0 < v) /\
    (high = irr_high \/
     exists v, npv cashflows high = Returned v /\ v <= 0).
Proof.
  intros Hret.
  destruct (compute_irr_some _ _ _ _ Hret)
    as [k [low [high [v [Hb [Hk [-> _]]]]]]].
  destruct (bracket_bounds _ _ _ _ _ Hb) as [H1 [H2 H3]].
  destruct (bracket_signs _ _ _ _ _ Hb) as [Hl Hh].
  exists k, low, high. repeat split; try assumption.
  - apply Qlt_shift_div_l; lra.
  - apply Qlt_shift_div_r; lra.
  - apply (bracket_width _ _ _ _ _ Hb).
Qed.

Lemma compute_irr_bracketed_witness :
  exists k low high,
    (k < 4)%nat /\ irr_example = (low + high) / 2 /\
    high - low == (irr_high - irr_low) / 2 ^ Z.of_nat k.
Proof.
  destruct (compute_irr_bracketed cashflows_example default_tol 4
              irr_example eq_refl)
    as [k [low [high [Hk [Hr [_ [_ [_ [_ [Hw _]]]]]]]]]].
  exists k, low, high. repeat split; assumption.
Defined.

Lemma compute_irr_returns (cashflows : list Q) (tol : Q) (max_iter : nat) :
  (0 < max_iter)%nat ->
  exists o, compute_irr cashflows tol max_iter = Returned o.
Proof.
  intros Hcap. unfold compute_irr.
  destruct (forallb (fun cf => Qleb 0 cf) cashflows
            || forallb (fun cf => Qleb cf 0) cashflows);
    [exists None; reflexivity|].
  destruct max_iter as [|iters]; [lia|].
  destruct (bisection_returns cashflows tol iters 0 irr_low irr_high
              None (bracket_start _ _))
    as [k [low [high [v [_ [_ [Hr _]]]]]]].
  eexists. exact Hr.
Qed.

(** ** The projection of a scenario *)

Lemma debt_of_year_columns (amort_schedule : list AmortizationRow) (yr : Z) :
  (1 <= yr)%Z ->
  debt_of_year amort_schedule yr
  = Returned
      match nth_error amort_schedule (Z.to_nat (yr - 1)) with
      | Some sched =>
          (interest sched, principal sched, remaining sched, payment sched)
      | None => (0, 0, final_balance amort_schedule, 0)
      end.
Proof.
  intros Hyr. unfold debt_of_year.
  destruct (nth_error amort_schedule (Z.to_nat (yr - 1))) as [sched|] eqn:N.
  - assert (Hlt : (Z.to_nat (yr - 1) < length amort_schedule)%nat)
      by (apply nth_error_Some; congruence).
    replace (1 <=? yr)%Z with true by (symmetry; apply Z.leb_le; lia).
    replace (yr <=? Z.of_nat (length amort_schedule))%Z with true
      by (symmetry; apply Z.leb_le; lia).
    reflexivity.
  - apply nth_error_None in N.
    replace (yr <=? Z.of_nat (length amort_schedule))%Z with false
      by (symmetry; apply Z.leb_gt; lia).
    rewrite andb_false_r. reflexivity.
Qed.

Section ProjectYear.
Variable fin : Financing.
Variable amort_schedule : list AmortizationRow.
Variable ebitda_year1 : Q.

Lemma project_year_facts (yr : Z) :
  (1 <= yr)%Z ->
  exists fcfe row,
    project_year fin amort_schedule ebitda_year1 yr = Returned (fcfe, row) /\
    dr_year row = yr /\
    dr_ebitda row = ebitda_year1 * (1 + growth_rate fin) ^ (yr - 1) /\
    mirrors_schedule amort_schedule yr row /\
    (0 <= tax_rate fin -> dr_cfads row <= dr_ebitda row) /\
    (Forall (fun s => interest s + principal s == payment s)
       amort_schedule ->
     fcfe == dr_cfads row - dr_debt_service row
             + (if (yr =? horizon_years fin)%Z then net_sale_of fin row
                else 0)).
Proof.
  intros Hyr. unfold project_year.
  rewrite py_pow_nonneg_exponent by lia. cbn [obind].
  rewrite (debt_of_year_columns amort_schedule yr Hyr). cbn [obind].
  unfold mirrors_schedule, net_sale_of.
  destruct (nth_error amort_schedule (Z.to_nat (yr - 1))) as [sched|] eqn:N;
    eexists _, _; (split; [reflexivity|]);
    cbn [dr_year dr_ebitda dr_cfads dr_debt_service dr_interest
         dr_principal dr_remaining];
    (split; [reflexivity|]); (split; [reflexivity|]);
    (split; [repeat split|]); split.
  - intros Ht.
    pose proof (py_max_0_ge
                  (ebitda_year1 * (1 + growth_rate fin) ^ (yr - 1)
                   - annual_depreciation fin - interest sched)) as Hm.
    pose proof (Qmult_le_0_compat _ _ Hm Ht). lra.
  - intros Hsplit.
    assert (Hs : interest sched + principal sched == payment sched).
    { apply (proj1 (List.Forall_forall _ _) Hsplit).
      apply (nth_error_In _ _ N). }
    destruct (yr =? horizon_years fin)%Z; lra.
  - intros Ht.
    pose proof (py_max_0_ge
                  (ebitda_year1 * (1 + growth_rate fin) ^ (yr - 1)
                   - annual_depreciation fin - 0)) as Hm.
    pose proof (Qmult_le_0_compat _ _ Hm Ht). lra.
  - intros _. destruct (yr =? horizon_years fin)%Z; lra.
Qed.

(** What holds of every year holds along the year loop. *)
Lemma project_years_lift (P : Z -> Q -> DscrRow -> Prop) :
  (forall yr, (1 <= yr)%Z ->
     exists fcfe row,
       project_year fin amort_schedule ebitda_year1 yr
         = Returned (fcfe, row) /\ P yr fcfe row) ->
  forall count yr, (1 <= yr)%Z ->
    exists cashflows dscr_rows,
      project_years fin amort_schedule ebitda_year1 count yr
        = Returned (cashflows, dscr_rows) /\
      length cashflows = count /\ length dscr_rows = count /\
      forall i, (i < count)%nat ->
        exists fcfe row,
          nth_error cashflows i = Some fcfe /\
          nth_error dscr_rows i = Some row /\
          P (yr + Z.of_nat i)%Z fcfe row.
Proof.
  intros HP. induction count as [|count IH]; intros yr Hyr.
  - exists [], []. repeat split. intros i Hi. lia.
  - cbn [project_years].
    destruct (HP yr Hyr) as [fcfe [row [Hrow Hp]]].
    destruct (IH (yr + 1)%Z ltac:(lia))
      as [cfs [rows [Hrows [Hl1 [Hl2 Hall]]]]].
    rewrite Hrow, Hrows. cbn [obind fst snd].
    exists (fcfe :: cfs), (row :: rows). repeat split.
    + cbn [length]. rewrite Hl1. reflexivity.
    + cbn [length]. rewrite Hl2. reflexivity.
    + intros [|i] Hi.
      * exists fcfe, row. repeat split.
        replace (yr + Z.of_nat 0)%Z with yr by lia. exact Hp.
      * destruct (Hall i ltac:(lia)) as [f' [r' [H1 [H2 H3]]]].
        exists f', r'. repeat split; try assumption.
        replace (yr + Z.of_nat (S i))%Z with (yr + 1 + Z.of_nat i)%Z by lia.
        exact H3.
Qed.
End ProjectYear.

(** ** C8: the debt-service coverage ratio of a projection year *)

Lemma project_year_dscr (fin : Financing)
    (amort_schedule : list AmortizationRow) (ebitda_year1 : Q) (yr : Z) :
  (1 <= yr)%Z ->
  exists fcfe row,
    project_year fin amort_schedule ebitda_year1 yr = Returned (fcfe, row) /\
    dr_year row = yr /\
    dscr_consistent row /\
    dscr_of_schedule fin amort_schedule ebitda_year1 yr row.
Proof.
  intros Hyr. unfold project_year, dscr_of_schedule, dscr_consistent.
  rewrite py_pow_nonneg_exponent by lia. cbn [obind].
  rewrite (debt_of_year_columns amort_schedule yr Hyr). cbn [obind].
  destruct (nth_error amort_schedule (Z.to_nat (yr - 1))) as [sched|];
    eexists _, _; (split; [reflexivity|]);
    cbn [dr_year dr_cfads dr_debt_service dr_dscr];
    (split; [reflexivity|]).
  - destruct (Qltb 0 (payment sched)) eqn:E;
      [apply Qltb_true in E | apply Qltb_false in E];
      repeat split; intros; try reflexivity; try discriminate; try lra;
      exfalso; lra.
  - repeat split; intros; try reflexivity; try lra; exfalso; lra.
Qed.

(** C8. The projection loop returns one row for each year [t], numbered
    from 1.  In the row of year [t] the DSCR is [None] exactly when the debt
    service of the year is not strictly positive, and is CFADS over debt
    service when it is.  The debt service is the payment of row [t] of the
    schedule, and 0 past the schedule; the CFADS is the EBITDA of the year
    less the tax.  So a year of the loan term with a positive payment has
    the ratio CFADS over payment, and a year after the term has [None], never
    zero: with positive payments throughout, the DSCR is [None] exactly in
    the years after the term. *)
Theorem C8_dscr_null_iff_no_debt_service (fin : Financing)
    (amort_schedule : list AmortizationRow) (ebitda_year1 : Q)
    (count : nat) :
  exists cashflows dscr_rows,
    project_years fin amort_schedule ebitda_year1 count 1
      = Returned (cashflows, dscr_rows) /\
    length dscr_rows = count /\
    (forall i row, nth_error dscr_rows i = Some row ->
       dr_year row = (1 + Z.of_nat i)%Z /\
       dscr_consistent row /\
       dscr_of_schedule fin amort_schedule ebitda_year1
         (1 + Z.of_nat i) row) /\
    (Forall (fun sched => 0 < payment sched) amort_schedule ->
     forall i row, nth_error dscr_rows i = Some row ->
       (dr_dscr row = None <-> (length amort_schedule <= i)%nat) /\
       ((i < length amort_schedule)%nat ->
        0 < dr_debt_service row /\
        dr_dscr row = Some (dr_cfads row / dr_debt_service row))).
Proof.
  destruct (project_years_lift fin amort_schedule ebitda_year1
              (fun yr _ row =>
                 dr_year row = yr /\ dscr_consistent row /\
                 dscr_of_schedule fin amort_schedule ebitda_year1 yr row))
    with (count := count) (yr := 1%Z)
    as [cfs [rows [Hret [_ [Hlen Hall]]]]]; [|lia|].
  - intros yr Hyr.
    destruct (project_year_dscr fin amort_schedule ebitda_year1 yr Hyr)
      as [fcfe [row (H & Hy & Hc & Hd)]].
    exists fcfe, row. split; [exact H|]. split; [exact Hy|].
    split; assumption.
  - assert (Hrow : forall i row, nth_error rows i = Some row ->
              dr_year row = (1 + Z.of_nat i)%Z /\
              dscr_consistent row /\
              dscr_of_schedule fin amort_schedule ebitda_year1
                (1 + Z.of_nat i) row).
    { intros i row Hi.
      assert (Hlt : (i < count)%nat)
        by (rewrite <- Hlen; apply nth_error_Some; congruence).
      destruct (Hall i Hlt) as [f' [r' [_ [Hr' H]]]].
      assert (r' = row) by congruence. subst r'. exact H. }
    exists cfs, rows. split; [exact Hret|]. split; [exact Hlen|].
    split; [exact Hrow|].
    intros Hpay i row Hi. destruct (Hrow i row Hi) as [_ [_ Hd]].
    unfold dscr_of_schedule in Hd.
    replace (Z.to_nat (1 + Z.of_nat i - 1)) with i in Hd by lia.
    destruct (nth_error amort_schedule i) as [sched|] eqn:N.
    + assert (Hlt : (i < length amort_schedule)%nat)
        by (apply nth_error_Some; congruence).
      assert (Hp : 0 < payment sched).
      { apply (proj1 (List.Forall_forall _ _) Hpay).
        apply (nth_error_In _ _ N). }
      destruct Hd as [Hds [_ [Hsome _]]]. split.
      * rewrite (Hsome Hp). split; [discriminate | lia].
      * intros _. rewrite Hds. split; [exact Hp | exact (Hsome Hp)].
    + apply nth_error_None in N. destruct Hd as [_ [_ Hnone]]. split.
      * split; [intros _; exact N | intros _; exact Hnone].
      * intros Hlt. lia.
Qed.

Lemma C8_dscr_null_iff_no_debt_service_witness :
  exists cashflows dscr_rows year1 year3,
    project_years financing_example small_schedule 5000 3 1
      = Returned (cashflows, dscr_rows) /\
    nth_error dscr_rows 0 = Some year1 /\
    nth_error dscr_rows 2 = Some year3 /\
    0 < dr_debt_service year1 /\
    dr_dscr year1 = Some (dr_cfads year1 / dr_debt_service year1) /\
    dr_dscr year3 = None.
Proof.
  destruct (C8_dscr_null_iff_no_debt_service financing_example
              small_schedule 5000 3)
    as [cfs [rows [Hret [Hlen [_ Hterm]]]]].
  assert (Hpay : Forall (fun sched => 0 < payment sched) small_schedule)
    by (repeat constructor).
  destruct rows as [|r1 [|r2 [|r3 [|r4 rest]]]]; try discriminate Hlen.
  exists cfs, [r1; r2; r3], r1, r3.
  destruct (Hterm Hpay 0%nat r1 eq_refl) as [_ H1].
  destruct (Hterm Hpay 2%nat r3 eq_refl) as [H3 _].
  destruct H1 as [Hds Hsome]; [cbn; lia|].
  repeat split; try assumption. apply H3. cbn. lia.
Defined.

(** The example above in figures: a two-year loan with payments of
    12100/21 projected over three years has the ratios 4220 / (12100/21) in
    year 1 and about 7.45 in year 2, and none in year 3. *)
Example dscr_example :
  match project_years financing_example small_schedule 5000 3 1 with
  | Returned (_, rows) =>
      map (fun row => (dr_year row, Qred (dr_debt_service row),
                       option_map Qred (dr_dscr row))) rows
  | Raised _ => []
  end
  = [(1%Z, 12100 # 21, Some (4431 # 605));
     (2%Z, 12100 # 21, Some (901 # 121));
     (3%Z, 0, None)].
Proof. vm_compute. reflexivity. Qed.

Lemma schedule_rows_split (debt_amount annual_rate : Q) (years : Z) sched :
  build_amortization_schedule debt_amount annual_rate years
    = Returned sched ->
  Forall (fun s => interest s + principal s == payment s) sched.
Proof.
  unfold build_amortization_schedule.
  destruct (Qleb debt_amount 0 || Qltb annual_rate 0 || (years <=? 0)%Z).
  - intros H. injection H as <-. constructor.
  - destruct (annual_payment_of debt_amount annual_rate years) as [A|e];
      cbn [obind]; [|discriminate].
    intros H. injection H as <-.
    eapply List.Forall_impl; [|apply amortize_payment].
    intros row [_ H]. exact H.
Qed.

(** X16. The projection never fails and yields one row a year, numbered from 1.
    Year [t] carries the year-1 EBITDA grown [t - 1] times, and its debt
    columns repeat row [t] of the schedule; past the end of the schedule
    interest, principal and debt service are 0 and the remaining debt stays
    at the final balance of the schedule (0 without a schedule). *)
Theorem projection_mirrors_schedule (fin : Financing)
    (amort_schedule : list AmortizationRow) (ebitda_year1 : Q)
    (count : nat) :
  exists cashflows dscr_rows,
    project_years fin amort_schedule ebitda_year1 count 1
      = Returned (cashflows, dscr_rows) /\
    length cashflows = count /\ length dscr_rows = count /\
    forall i row, nth_error dscr_rows i = Some row ->
      dr_year row = (1 + Z.of_nat i)%Z /\
      dr_ebitda row
        = ebitda_year1 * (1 + growth_rate fin) ^ (1 + Z.of_nat i - 1) /\
      mirrors_schedule amort_schedule (1 + Z.of_nat i) row.
Proof.
  destruct (project_years_lift fin amort_schedule ebitda_year1
              (fun yr _ row =>
                 dr_year row = yr /\
                 dr_ebitda row
                   = ebitda_year1 * (1 + growth_rate fin) ^ (yr - 1) /\
                 mirrors_schedule amort_schedule yr row))
    with (count := count) (yr := 1%Z)
    as [cfs [rows [Hret [Hl1 [Hl2 Hall]]]]]; [|lia|].
  - intros yr Hyr.
    destruct (project_year_facts fin amort_schedule ebitda_year1 yr Hyr)
      as [fcfe [row (H & Hy & He & Hm & _)]].
    exists fcfe, row. repeat split; assumption.
  - exists cfs, rows. repeat split; try assumption;
      (assert (Hi : (i < count)%nat)
         by (rewrite <- Hl2; apply nth_error_Some; congruence));
      destruct (Hall i Hi) as [f' [r' [_ [Hr' (Hy & He & Hm)]]]];
      assert (r' = row) by congruence; subst r'; assumption.
Qed.

(** X17. For a schedule built by [build_amortization_schedule], the equity cash
    flow of every projection year is the cash flow available for debt
    service less the debt service, plus, in the last year of the horizon,
    the net proceeds of the sale. *)
Theorem fcfe_is_cfads_less_debt_service (debt_amount annual_rate : Q)
    (years : Z) (amort_schedule : list AmortizationRow) (fin : Financing)
    (ebitda_year1 : Q) (count : nat) :
  build_amortization_schedule debt_amount annual_rate years
    = Returned amort_schedule ->
  exists cashflows dscr_rows,
    project_years fin amort_schedule ebitda_year1 count 1
      = Returned (cashflows, dscr_rows) /\
    forall i, (i < count)%nat ->
      exists fcfe row,
        nth_error cashflows i = Some fcfe /\
        nth_error dscr_rows i = Some row /\
        fcfe == dr_cfads row - dr_debt_service row
                + (if (1 + Z.of_nat i =? horizon_years fin)%Z
                   then net_sale_of fin row else 0).
Proof.
  intros Hb. pose proof (schedule_rows_split _ _ _ _ Hb) as Hsplit.
  destruct (project_years_lift fin amort_schedule ebitda_year1
              (fun yr fcfe row =>
                 fcfe == dr_cfads row - dr_debt_service row
                         + (if (yr =? horizon_years fin)%Z
                            then net_sale_of fin row else 0)))
    with (count := count) (yr := 1%Z)
    as [cfs [rows [Hret [_ [_ Hall]]]]]; [|lia|].
  - intros yr Hyr.
    destruct (project_year_facts fin amort_schedule ebitda_year1 yr Hyr)
      as [fcfe [row (H & _ & _ & _ & _ & Hf)]].
    exists fcfe, row. split; [exact H | exact (Hf Hsplit)].
  - exists cfs, rows. split; [exact Hret | exact Hall].
Qed.

Lemma fcfe_is_cfads_less_debt_service_witness :
  exists cashflows dscr_rows,
    project_years financing_example small_schedule 5000 2 1
      = Returned (cashflows, dscr_rows) /\
    forall i, (i < 2)%nat ->
      exists fcfe row,
        nth_error cashflows i = Some fcfe /\
        nth_error dscr_rows i = Some row /\
        fcfe == dr_cfads row - dr_debt_service row
                + (if (1 + Z.of_nat i =? horizon_years financing_example)%Z
                   then net_sale_of financing_example row else 0).
Proof.
  apply (fcfe_is_cfads_less_debt_service 1000 0.1 2). reflexivity.
Defined.

(** X18. With a tax rate of at least 0, the cash flow available for debt service
    never exceeds the EBITDA of the year. *)
Theorem cfads_at_most_ebitda (fin : Financing)
    (amort_schedule : list AmortizationRow) (ebitda_year1 : Q)
    (count : nat) :
  0 <= tax_rate fin ->
  exists cashflows dscr_rows,
    project_years fin amort_schedule ebitda_year1 count 1
      = Returned (cashflows, dscr_rows) /\
    Forall (fun row => dr_cfads row <= dr_ebitda row) dscr_rows.
Proof.
  intros Ht.
  destruct (project_years_lift fin amort_schedule ebitda_year1
              (fun _ _ row => dr_cfads row <= dr_ebitda row))
    with (count := count) (yr := 1%Z)
    as [cfs [rows [Hret [_ [Hl2 Hall]]]]]; [|lia|].
  - intros yr Hyr.
    destruct (project_year_facts fin amort_schedule ebitda_year1 yr Hyr)
      as [fcfe [row (H & _ & _ & _ & Hc & _)]].
    exists fcfe, row. split; [exact H | exact (Hc Ht)].
  - exists cfs, rows. split; [exact Hret|].
    apply List.Forall_forall. intros row Hin.
    apply In_nth_error in Hin. destruct Hin as [i Hi].
    assert (Hlt : (i < count)%nat)
      by (rewrite <- Hl2; apply nth_error_Some; congruence).
    destruct (Hall i Hlt) as [f' [r' [_ [Hr' H]]]].
    assert (r' = row) by congruence. subst r'. exact H.
Qed.

Lemma cfads_at_most_ebitda_witness :
  exists cashflows dscr_rows,
    project_years financing_example [] 5000 2 1
      = Returned (cashflows, dscr_rows) /\
    Forall (fun row => dr_cfads row <= dr_ebitda row) dscr_rows.
Proof.
  apply (cfads_at_most_ebitda financing_example [] 5000 2). discriminate.
Defined.

Lemma projection_shape (fin : Financing)
    (amort_schedule : list AmortizationRow) (ebitda_year1 : Q)
    (count : nat) :
  exists cashflows dscr_rows,
    project_years fin amort_schedule ebitda_year1 count 1
      = Returned (cashflows, dscr_rows) /\
    length cashflows = count /\ length dscr_rows = count.
Proof.
  destruct (project_years_lift fin amort_schedule ebitda_year1
              (fun _ _ _ => True))
    with (count := count) (yr := 1%Z)
    as [cfs [rows [Hret [Hl1 [Hl2 _]]]]]; [|lia|].
  - intros yr Hyr.
    destruct (project_year_facts fin amort_schedule ebitda_year1 yr Hyr)
      as [fcfe [row [H _]]].
    exists fcfe, row. split; [exact H | exact I].
  - exists cfs, rows. repeat split; assumption.
Qed.

(** X19. A scenario never fails.  Its cash flows start with the equity outlay,
    negated, followed by one equity cash flow per year of the horizon; the
    rate of return is the one of that series; and the year-1 costs are the
    fixed costs plus the variable costs on revenue, both multiplied by the
    cost factor. *)
Theorem run_scenario_result (room_types : odict RoomType)
    (seasons_base_config : odict SeasonBase)
    (variable_cost_rate base_fixed_costs equity_amount : Q)
    (fin : Financing) (amort_schedule : list AmortizationRow)
    (params : ScenarioFactors) :
  exists res fcfes,
    run_scenario room_types seasons_base_config variable_cost_rate
      base_fixed_costs equity_amount fin amort_schedule params
    = Returned res /\
    sc_cashflows res = - equity_amount :: fcfes /\
    length fcfes = Z.to_nat (horizon_years fin) /\
    length (sc_dscr_rows res) = Z.to_nat (horizon_years fin) /\
    compute_irr (sc_cashflows res) default_tol default_max_iter
    = Returned (sc_irr res) /\
    sc_revenue res
    = total_revenue
        (simulate_annual_revenue room_types
           (scenario_seasons params seasons_base_config)) /\
    sc_total_costs res
    == (base_fixed_costs + sc_revenue res * variable_cost_rate)
       * cost_factor params /\
    sc_ebitda_year1 res = sc_revenue res - sc_total_costs res.
Proof.
  unfold run_scenario.
  set (revenue := total_revenue
                    (simulate_annual_revenue room_types
                       (scenario_seasons params seasons_base_config))).
  set (costs := base_fixed_costs * cost_factor params
                + revenue * variable_cost_rate * cost_factor params).
  destruct (projection_shape fin amort_schedule (revenue - costs)
              (Z.to_nat (horizon_years fin)))
    as [cfs [rows [Hret [Hl1 Hl2]]]].
  rewrite Hret. cbn [obind fst snd].
  destruct (compute_irr_returns (- equity_amount :: cfs) default_tol
              default_max_iter) as [o Ho]; [unfold default_max_iter; lia|].
  rewrite Ho. cbn [obind]. eexists _, cfs. split; [reflexivity|].
  cbn [sc_cashflows sc_dscr_rows sc_irr sc_revenue sc_total_costs
       sc_ebitda_year1].
  repeat split; try assumption. unfold costs. ring.
Qed.

(** ** The simulation as a whole *)

Lemma run_scenario_returns (room_types : odict RoomType)
    (seasons_base_config : odict SeasonBase)
    (variable_cost_rate base_fixed_costs equity_amount : Q)
    (fin : Financing) (amort_schedule : list AmortizationRow)
    (params : ScenarioFactors) :
  exists res,
    run_scenario room_types seasons_base_config variable_cost_rate
      base_fixed_costs equity_amount fin amort_schedule params
    = Returned res.
Proof.
  unfold run_scenario.
  match goal with
  | |- context [project_years fin amort_schedule ?e ?c 1] =>
      destruct (projection_shape fin amort_schedule e c)
        as [cfs [rows [Hret _]]]
  end.
  rewrite Hret. cbn [obind fst snd].
  destruct (compute_irr_returns (- equity_amount :: cfs) default_tol
              default_max_iter) as [o Ho]; [unfold default_max_iter; lia|].
  rewrite Ho. cbn [obind]. eexists. reflexivity.
Qed.

Lemma od_get_set_is_Some {V} (d : odict V) k v name :
  is_Some (od_get (od_set d k v) name)
  <-> name = k \/ is_Some (od_get d name).
Proof.
  destruct (String.eqb_spec k name) as [->|Hne].
  - rewrite od_get_set_eq. split; [left; reflexivity | eauto].
  - rewrite od_get_set_ne by exact Hne. split; [right; assumption|].
    intros [->|H]; [contradiction | exact H].
Qed.

Lemma run_scenarios_returns (room_types : odict RoomType)
    (seasons_base_config : odict SeasonBase)
    (variable_cost_rate base_fixed_costs equity_amount : Q)
    (fin : Financing) (amort_schedule : list AmortizationRow)
    (scenario_params : odict ScenarioFactors) :
  forall scenario_results,
  exists res,
    run_scenarios room_types seasons_base_config variable_cost_rate
      base_fixed_costs equity_amount fin amort_schedule scenario_params
      scenario_results = Returned res /\
    forall name,
      is_Some (od_get res name)
      <-> is_Some (od_get scenario_results name)
          \/ In name (map fst scenario_params).
Proof.
  induction scenario_params as [|[name params] rest IH];
    intros scenario_results; cbn [run_scenarios].
  - exists scenario_results. split; [reflexivity|].
    intros name. cbn. tauto.
  - destruct (run_scenario_returns room_types seasons_base_config
                variable_cost_rate base_fixed_costs equity_amount fin
                amort_schedule params) as [r Hr].
    rewrite Hr. cbn [obind].
    destruct (IH (od_set scenario_results name r)) as [res [Hres Hkeys]].
    exists res. split; [exact Hres|]. intros n. rewrite Hkeys.
    rewrite od_get_set_is_Some. cbn [map fst In]. split.
    + intros [[->|H]|H]; auto.
    + intros [H|[<-|H]]; auto.
Qed.

Lemma inject_Z_nonzero (z : Z) : z <> 0%Z -> ~ inject_Z z == 0.
Proof.
  intros Hz E. apply Hz. unfold Qeq in E. cbn in E. lia.
Qed.

(** In exact arithmetic the simulation returns unless the depreciation
    period is 0 years. *)
Lemma run_simulation_returns_exact
    (room_types : odict RoomType) (seasons_base_config : odict SeasonBase)
    (a : Assumptions) (scenario_params : odict ScenarioFactors) :
  deprec_years a <> 0%Z ->
  exists res,
    run_simulation room_types seasons_base_config a scenario_params
    = Returned res.
Proof.
  intros Hd. unfold run_simulation.
  destruct (schedule_always_returns
              (total_investment a * debt_ratio a) (interest_rate a)
              (loan_years a)) as [sched Hs].
  rewrite Hs. cbn [obind].
  rewrite py_div_nonzero by (apply inject_Z_nonzero, Hd). cbn [obind].
  match goal with
  | |- context [run_scenarios ?a1 ?a2 ?a3 ?a4 ?a5 ?a6 ?a7 ?a8 []] =>
      destruct (run_scenarios_returns a1 a2 a3 a4 a5 a6 a7 a8 [])
        as [res [Hres _]]
  end.
  exists res. exact Hres.
Qed.

Section ScenarioLoop.
Variable room_types : odict RoomType.
Variable seasons_base_config : odict SeasonBase.
Variables variable_cost_rate base_fixed_costs equity_amount : Q.
Variable fin : Financing.
Variable amort_schedule : list AmortizationRow.

Let run (params : ScenarioFactors) : outcome ScenarioResult :=
  run_scenario room_types seasons_base_config variable_cost_rate
    base_fixed_costs equity_amount fin amort_schedule params.

(** What a returned scenario loop has stored. *)
Lemma run_scenarios_inv (scenario_params : odict ScenarioFactors) :
  forall scenario_results res,
    run_scenarios room_types seasons_base_config variable_cost_rate
      base_fixed_costs equity_amount fin amort_schedule scenario_params
      scenario_results = Returned res ->
    (forall name,
       is_Some (od_get res name)
       <-> is_Some (od_get scenario_results name)
           \/ In name (map fst scenario_params)) /\
    (forall name, ~ In name (map fst scenario_params) ->
       od_get res name = od_get scenario_results name) /\
    (List.NoDup (map fst scenario_params) ->
     forall name params, In (name, params) scenario_params ->
       exists r, od_get res name = Some r /\ run params = Returned r).
Proof.
  unfold run.
  induction scenario_params as [|[name0 params0] rest IH];
    intros acc res Hres; cbn [run_scenarios] in Hres.
  - injection Hres as <-. split; [|split].
    + intros name. cbn. tauto.
    + reflexivity.
    + intros _ name params [].
  - destruct (run_scenario room_types seasons_base_config variable_cost_rate
                base_fixed_costs equity_amount fin amort_schedule params0)
      as [r0|e] eqn:Hr0; cbn [obind] in Hres; [|discriminate].
    destruct (IH _ _ Hres) as [Hkeys [Hother Hin]]. split; [|split].
    + intros name. rewrite Hkeys, od_get_set_is_Some. cbn [map fst In].
      split.
      * intros [[->|H]|H]; auto.
      * intros [H|[<-|H]]; auto.
    + intros name Hname. cbn [map fst In] in Hname.
      rewrite Hother by tauto. apply od_get_set_ne. tauto.
    + intros Hnd name params Hin'. cbn [map fst] in Hnd.
      apply List.NoDup_cons_iff in Hnd. destruct Hnd as [Hfresh Hnd].
      destruct Hin' as [E|Hin'].
      * injection E as <- <-. exists r0. split; [|exact Hr0].
        rewrite (Hother name0 Hfresh). apply od_get_set_eq.
      * apply (Hin Hnd name params Hin').
Qed.
End ScenarioLoop.

(** X20. When the simulation returns, the depreciation period is not 0,
    and the result has an entry for exactly the scenario names given.  One
    amortization schedule, built from the debt [total_investment *
    debt_ratio], and one yearly depreciation serve all scenarios: with
    distinct scenario names, the entry under a name is the run of that
    scenario's own factors on that schedule, that depreciation and the
    equity [total_investment * (1 - debt_ratio)]. *)
Theorem run_simulation_result_per_scenario
    (room_types : odict RoomType) (seasons_base_config : odict SeasonBase)
    (a : Assumptions) (scenario_params : odict ScenarioFactors)
    (res : odict ScenarioResult) :
  run_simulation room_types seasons_base_config a scenario_params
    = Returned res ->
  deprec_years a <> 0%Z /\
  (forall name,
     is_Some (od_get res name) <-> In name (map fst scenario_params)) /\
  exists amort_schedule annual_depreciation,
    build_amortization_schedule (total_investment a * debt_ratio a)
      (interest_rate a) (loan_years a) = Returned amort_schedule /\
    py_div (total_investment a * amortizable_share a)
      (inject_Z (deprec_years a)) = Returned annual_depreciation /\
    (List.NoDup (map fst scenario_params) ->
     forall name params, In (name, params) scenario_params ->
       exists r,
         od_get res name = Some r /\
         run_scenario room_types seasons_base_config (variable_cost_rate a)
           (base_fixed_costs a) (total_investment a * (1 - debt_ratio a))
           (mkFinancing (a_growth_rate a) (a_tax_rate a) (a_exit_multiple a)
              (a_exit_cost_rate a) (a_horizon_years a) annual_depreciation)
           amort_schedule params
         = Returned r).
Proof.
  unfold run_simulation.
  destruct (build_amortization_schedule (total_investment a * debt_ratio a)
              (interest_rate a) (loan_years a)) as [sched|e];
    cbn [obind]; [|discriminate].
  destruct (py_div (total_investment a * amortizable_share a)
              (inject_Z (deprec_years a))) as [dep|e] eqn:Hdep;
    cbn [obind]; [|discriminate].
  intros Hres. split; [|split].
  - intros Hz. rewrite Hz in Hdep. discriminate Hdep.
  - destruct (run_scenarios_inv _ _ _ _ _ _ _ _ _ _ Hres) as [Hkeys _].
    intros name. rewrite Hkeys. cbn [od_get]. split.
    + intros [[x Hx]|H]; [discriminate | exact H].
    + intros H. right. exact H.
  - exists sched, dep. split; [reflexivity|]. split; [reflexivity|].
    destruct (run_scenarios_inv _ _ _ _ _ _ _ _ _ _ Hres) as [_ [_ Hin]].
    exact Hin.
Qed.

Lemma run_simulation_result_per_scenario_witness :
  exists res,
    run_simulation inventory_example [("Ete"%string, season_base_example)]
      assumptions_example
      [("Base"%string, mkScenarioFactors 1 1 1);
       ("Optimiste"%string, optimistic)]
    = Returned res /\
    (is_Some (od_get res "Base"%string)
     <-> In "Base"%string ["Base"%string; "Optimiste"%string]).
Proof.
  destruct (run_simulation_returns_exact inventory_example
              [("Ete"%string, season_base_example)] assumptions_example
              [("Base"%string, mkScenarioFactors 1 1 1);
               ("Optimiste"%string, optimistic)]) as [res H];
    [discriminate|].
  exists res. split; [exact H|].
  apply (run_simulation_result_per_scenario _ _ _ _ _ H).
Defined.

(** ** The exported statements *)

(** X21. In the exported P&L the revenue line less the cost line is always the
    EBITDA.  When the year-1 revenue and EBITDA are both positive, the
    revenue line is the EBITDA of the year divided by the year-1 margin, so
    the year whose EBITDA is the year-1 EBITDA shows the year-1 revenue.
    When either is not positive, the revenue line is 0 and the cost line is
    the EBITDA negated. *)
Theorem pnl_revenue_from_margin (annual_depreciation tax_rate
    ebitda_year1 revenue_year1 : Q) (row : DscrRow) :
  let line :=
    pnl_row annual_depreciation tax_rate
      (ebitda_margin ebitda_year1 revenue_year1) row in
  pnl_revenue line - pnl_costs line == pnl_ebitda line /\
  (0 < revenue_year1 -> 0 < ebitda_year1 ->
   pnl_revenue line == dr_ebitda row * revenue_year1 / ebitda_year1 /\
   (dr_ebitda row == ebitda_year1 -> pnl_revenue line == revenue_year1)) /\
  (revenue_year1 <= 0 \/ ebitda_year1 <= 0 ->
   pnl_revenue line = 0 /\ pnl_costs line == - dr_ebitda row).
Proof.
  cbv zeta. unfold pnl_row, ebitda_margin.
  cbn [pnl_revenue pnl_costs pnl_ebitda]. split; [ring|]. split.
  - intros Hrev He.
    rewrite (proj2 (Qltb_true 0 revenue_year1) Hrev).
    assert (Hm : 0 < ebitda_year1 / revenue_year1)
      by (apply Qlt_shift_div_l; lra).
    rewrite (proj2 (Qltb_true _ _) Hm).
    assert (E : dr_ebitda row / (ebitda_year1 / revenue_year1)
                == dr_ebitda row * revenue_year1 / ebitda_year1)
      by (field; split; apply Qpos_neq0; assumption).
    split; [exact E|]. intros Hy1. rewrite E, Hy1. field.
    apply Qpos_neq0, He.
  - intros Hneg.
    assert (Hm : Qltb 0 (if Qltb 0 revenue_year1
                         then ebitda_year1 / revenue_year1 else 0) = false).
    { destruct (Qltb 0 revenue_year1) eqn:Er; [|reflexivity].
      apply Qltb_true in Er. apply Qltb_false.
      destruct Hneg as [H|H]; [lra|].
      apply Qle_shift_div_r; lra. }
    rewrite Hm. split; [reflexivity | ring].
Qed.

Lemma pnl_revenue_from_margin_witness :
  pnl_revenue (pnl_row 1000 0.2 (ebitda_margin 5000 20000) dscr_row_example)
  == 20000.
Proof.
  destruct (pnl_revenue_from_margin 1000 0.2 5000 20000 dscr_row_example)
    as [_ [H _]].
  apply H; reflexivity.
Defined.

Lemma py_min_int_min (a b : Z) : py_min_int a b = Z.min a b.
Proof. unfold py_min_int. destruct (Z.ltb_spec b a); lia. Qed.

(** X22. In the exported balance sheet, with a non-negative investment and
    amortizable share and the yearly depreciation computed as in [main]:
    theoretical equity plus debt is the net fixed assets; up to the end of
    the depreciation period the net fixed assets are the investment less the
    depreciation accumulated so far; from then on they stay at the
    non-amortizable part; and the loan-to-value is [None] exactly when the
    net fixed assets are not positive. *)
Theorem bilan_row_facts (total_investment amortizable_share
    annual_depreciation : Q) (deprec_years : Z) (row : DscrRow) :
  0 <= total_investment -> 0 <= amortizable_share ->
  (0 < deprec_years)%Z ->
  py_div (total_investment * amortizable_share) (inject_Z deprec_years)
    = Returned annual_depreciation ->
  let line :=
    bilan_row total_investment amortizable_share
      (total_investment * amortizable_share) annual_depreciation
      deprec_years row in
  bl_equity line + bl_debt line == bl_net_ppe line /\
  ((0 <= dr_year row <= deprec_years)%Z ->
   bl_net_ppe line
   == total_investment - annual_depreciation * inject_Z (dr_year row)) /\
  ((deprec_years <= dr_year row)%Z ->
   bl_net_ppe line == total_investment * (1 - amortizable_share)) /\
  (bl_ltv line = None <-> bl_net_ppe line <= 0) /\
  (0 < bl_net_ppe line ->
   bl_ltv line = Some (bl_debt line / bl_net_ppe line)).
Proof.
  intros Hti Hsh Hdy Hdep. pose proof (inject_Z_pos _ Hdy) as Hdq.
  rewrite py_div_nonzero in Hdep by (apply Qpos_neq0, Hdq).
  injection Hdep as <-. cbv zeta. unfold bilan_row.
  cbn [bl_equity bl_debt bl_net_ppe bl_ltv]. rewrite py_min_int_min.
  set (base := total_investment * amortizable_share).
  assert (Hbase : 0 <= base) by (apply Qmult_le_0_compat; assumption).
  split; [ring|]. split; [|split].
  - intros [Hy0 Hy1]. rewrite Z.min_l by lia.
    assert (Hyq : inject_Z (dr_year row) <= inject_Z deprec_years)
      by (rewrite <- Zle_Qle; exact Hy1).
    rewrite py_max_0_nonneg; [unfold base; ring|].
    assert (E : base - base / inject_Z deprec_years * inject_Z (dr_year row)
                == base * (inject_Z deprec_years - inject_Z (dr_year row))
                   / inject_Z deprec_years)
      by (field; apply Qpos_neq0, Hdq).
    rewrite E. apply Qle_shift_div_l; [exact Hdq|].
    assert (0 <= base * (inject_Z deprec_years - inject_Z (dr_year row)))
      by (apply Qmult_le_0_compat; lra).
    lra.
  - intros Hy. rewrite Z.min_r by lia.
    assert (E : base - base / inject_Z deprec_years * inject_Z deprec_years
                == 0) by (field; apply Qpos_neq0, Hdq).
    unfold py_max. rewrite (proj2 (Qltb_false 0 _)) by (rewrite E; lra).
    ring.
  - match goal with
    | |- context [Qltb 0 ?x] => destruct (Qltb 0 x) eqn:El
    end.
    + apply Qltb_true in El. repeat split.
      * discriminate.
      * intros H. lra.
    + apply Qltb_false in El. repeat split.
      * intros _. exact El.
      * intros H. lra.
Qed.

Lemma bilan_row_facts_witness :
  bl_net_ppe (bilan_row 1000 0.8 (1000 * 0.8) (1000 * 0.8 / inject_Z 2) 2
                dscr_row_example)
  == 1000 * (1 - 0.8).
Proof.
  destruct (bilan_row_facts 1000 0.8 (1000 * 0.8 / inject_Z 2) 2
              dscr_row_example) as [_ [_ [H _]]];
    [discriminate | discriminate | lia | reflexivity |].
  apply H. cbn. lia.
Defined.

(** ** Merging a configuration into the defaults *)

Section DeepUpdate.
Context {A : Type}.
Implicit Types d u : odict (cfg_value A).

Lemma deep_update_nil d : deep_update d [] = d.
Proof. reflexivity. Qed.

Lemma deep_update_cons d k v u :
  deep_update d ((k, v) :: u)
  = deep_update (od_set d k (merged (od_get d k) v)) u.
Proof.
  unfold deep_update, merged. cbn [deep_update_value].
  destruct v as [a|vi]; [reflexivity|].
  destruct (od_get d k) as [[b|dk]|]; reflexivity.
Qed.

Lemma deep_update_other d u k :
  ~ In k (map fst u) -> od_get (deep_update d u) k = od_get d k.
Proof.
  revert d. induction u as [|[k0 v0] u IH]; intros d Hk.
  - reflexivity.
  - rewrite deep_update_cons, IH.
    + apply od_get_set_ne. intros ->. apply Hk. left. reflexivity.
    + intros H. apply Hk. right. exact H.
Qed.

Lemma deep_update_key d u k v :
  List.NoDup (map fst u) -> In (k, v) u ->
  od_get (deep_update d u) k = Some (merged (od_get d k) v).
Proof.
  revert d. induction u as [|[k0 v0] u IH]; intros d Hnd Hin; [destruct Hin|].
  cbn [map fst] in Hnd. apply List.NoDup_cons_iff in Hnd.
  destruct Hnd as [Hk0 Hnd]. rewrite deep_update_cons.
  destruct Hin as [E|Hin].
  - injection E as -> ->. rewrite deep_update_other by exact Hk0.
    apply od_get_set_eq.
  - assert (Hne : k0 <> k).
    { intros ->. apply Hk0. apply (in_map fst _ _ Hin). }
    rewrite (IH _ Hnd Hin), od_get_set_ne by exact Hne. reflexivity.
Qed.

Lemma od_set_keys {V} (d : odict V) k v :
  map fst (od_set d k v)
  = map fst d ++ (match od_get d k with Some _ => [] | None => [k] end).
Proof.
  induction d as [|[k' v'] d IH]; cbn; [reflexivity|].
  destruct (String.eqb_spec k' k) as [->|Hne]; cbn.
  - rewrite app_nil_r. reflexivity.
  - rewrite IH. reflexivity.
Qed.

Lemma deep_update_keys d u :
  exists added,
    map fst (deep_update d u) = map fst d ++ added /\
    forall k, In k added -> In k (map fst u).
Proof.
  revert d. induction u as [|[k0 v0] u IH]; intros d.
  - exists []. rewrite app_nil_r. split; [reflexivity | intros k []].
  - rewrite deep_update_cons.
    destruct (IH (od_set d k0 (merged (od_get d k0) v0)))
      as [added [Hk Hin]].
    rewrite od_set_keys, <- app_assoc in Hk. eexists. split; [exact Hk|].
    intros k Hk'. apply in_app_or in Hk'. cbn [map fst].
    destruct Hk' as [Hk'|Hk'].
    + destruct (od_get d k0); [destruct Hk'|].
      destruct Hk' as [<-|[]]. left. reflexivity.
    + right. apply Hin, Hk'.
Qed.
End DeepUpdate.

(** X23. A key the override does not mention keeps the value it has in the
    defaults, and stays absent if it is absent there. *)
Theorem deep_update_keeps_other_keys {A} (d u : odict (cfg_value A))
    (k : string) :
  ~ In k (map fst u) -> od_get (deep_update d u) k = od_get d k.
Proof.
  revert d. induction u as [|[k0 v0] u IH]; intros d Hk.
  - reflexivity.
  - rewrite deep_update_cons, IH.
    + apply od_get_set_ne. intros ->. apply Hk. left. reflexivity.
    + intros H. apply Hk. right. exact H.
Qed.

Lemma deep_update_keeps_other_keys_witness :
  od_get (deep_update [("a"%string, CLeaf 1%Z); ("b"%string, CLeaf 2%Z)]
            [("b"%string, CLeaf 3%Z)]) "a"%string
  = od_get [("a"%string, CLeaf 1%Z); ("b"%string, CLeaf 2%Z)] "a"%string.
Proof.
  apply deep_update_keeps_other_keys. cbn. intros [H|[]]. discriminate H.
Defined.

(** X24. Under a key of the override (keys being distinct), the result holds
    the override value; only when that value and the default are both
    [dict]s does it hold the default [dict] updated, recursively, by the
    override [dict].  So a number replaces whatever was there, and a [dict]
    replaces a number or fills a missing key. *)
Theorem deep_update_overrides {A} (d u : odict (cfg_value A))
    (k : string) (v : cfg_value A) :
  List.NoDup (map fst u) -> In (k, v) u ->
  od_get (deep_update d u) k = Some (merged (od_get d k) v) /\
  (forall a, v = CLeaf a -> od_get (deep_update d u) k = Some (CLeaf a)) /\
  (forall vi dk, v = CDict vi -> od_get d k = Some (CDict dk) ->
     od_get (deep_update d u) k = Some (CDict (deep_update dk vi))) /\
  (forall vi, v = CDict vi ->
     (forall dk, od_get d k <> Some (CDict dk)) ->
     od_get (deep_update d u) k = Some (CDict vi)).
Proof.
  intros Hnd Hin. rewrite (deep_update_key d u k v Hnd Hin).
  split; [reflexivity|]. split; [|split].
  - intros a ->. reflexivity.
  - intros vi dk -> ->. reflexivity.
  - intros vi -> Hno. unfold merged.
    destruct (od_get d k) as [[b|dk]|]; try reflexivity.
    exfalso. apply (Hno dk). reflexivity.
Qed.

Lemma deep_update_overrides_witness :
  od_get
    (deep_update
       [("fin"%string, CDict [("rate"%string, CLeaf 3%Z);
                              ("years"%string, CLeaf 15%Z)])]
       [("fin"%string, CDict [("rate"%string, CLeaf 4%Z)])]) "fin"%string
  = Some (CDict (deep_update [("rate"%string, CLeaf 3%Z);
                              ("years"%string, CLeaf 15%Z)]
                   [("rate"%string, CLeaf 4%Z)])).
Proof.
  destruct (deep_update_overrides
              [("fin"%string, CDict [("rate"%string, CLeaf 3%Z);
                                     ("years"%string, CLeaf 15%Z)])]
              [("fin"%string, CDict [("rate"%string, CLeaf 4%Z)])]
              "fin"%string (CDict [("rate"%string, CLeaf 4%Z)]))
    as [_ [_ [H _]]].
  - repeat constructor. intros [].
  - left. reflexivity.
  - apply H; reflexivity.
Defined.

(** X25. The merge removes no key and keeps the keys of the defaults first, in
    their order; the keys it adds after them are keys of the override. *)
Theorem deep_update_keeps_default_keys {A} (d u : odict (cfg_value A)) :
  exists added,
    map fst (deep_update d u) = map fst d ++ added /\
    (forall k, In k added -> In k (map fst u)) /\
    (forall k, is_Some (od_get d k) -> is_Some (od_get (deep_update d u) k)).
Proof.
  destruct (deep_update_keys d u) as [added [Hk Hin]].
  exists added. split; [exact Hk|]. split; [exact Hin|].
  intros k. clear Hk Hin. revert d.
  induction u as [|[k0 v0] u IH]; intros d Hd.
  - exact Hd.
  - rewrite deep_update_cons. apply IH.
    apply od_get_set_is_Some. right. exact Hd.
Qed.

Lemma distinct_keys_dict {A} (items : list (string * cfg_value A)) :
  distinct_keys (CDict items)
  <-> List.NoDup (map fst items)
      /\ Forall (fun kv => distinct_keys (snd kv)) items.
Proof.
  cbn [distinct_keys].
  assert (H : (fix all (items : list (string * cfg_value A)) : Prop :=
                 match items with
                 | [] => True
                 | (_, v) :: rest => distinct_keys v /\ all rest
                 end) items
              <-> Forall (fun kv => distinct_keys (snd kv)) items).
  { induction items as [|[k v] rest IH].
    - split; [constructor | trivial].
    - rewrite List.Forall_cons_iff, <- IH. reflexivity. }
  rewrite H. reflexivity.
Qed.

Lemma od_get_In {V} (l : odict V) k v :
  List.NoDup (map fst l) -> In (k, v) l -> od_get l k = Some v.
Proof.
  induction l as [|[k' v'] l IH]; intros Hnd Hin; [destruct Hin|].
  cbn [map fst] in Hnd. apply List.NoDup_cons_iff in Hnd.
  destruct Hnd as [Hk Hnd]. cbn [od_get]. destruct Hin as [E|Hin].
  - injection E as -> ->. rewrite String.eqb_refl. reflexivity.
  - destruct (String.eqb_spec k' k) as [->|Hne].
    + exfalso. apply Hk. apply (in_map fst _ _ Hin).
    + apply IH; assumption.
Qed.

Lemma od_set_same {V} (d : odict V) k m :
  od_get d k = Some m -> od_set d k m = d.
Proof.
  induction d as [|[k' v'] d IH]; cbn; [discriminate|].
  destruct (String.eqb k' k).
  - intros H. injection H as ->. reflexivity.
  - intros H. rewrite IH by exact H. reflexivity.
Qed.

(** An override whose every item is already in place changes nothing. *)
Lemma deep_update_in_place {A} (u : odict (cfg_value A)) :
  forall d,
    (forall k v, In (k, v) u ->
       exists m, od_get d k = Some m /\ merged (Some m) v = m) ->
    deep_update d u = d.
Proof.
  induction u as [|[k v] u IH]; intros d Hd; [reflexivity|].
  rewrite deep_update_cons.
  destruct (Hd k v (or_introl eq_refl)) as [m [Hm Hmm]].
  rewrite Hm, Hmm, (od_set_same d k m Hm).
  apply IH. intros k' v' Hin. apply Hd. right. exact Hin.
Qed.

Lemma deep_update_twice {A} (v : cfg_value A) :
  distinct_keys v ->
  forall u, v = CDict u ->
    deep_update u u = u /\
    forall d, deep_update (deep_update d u) u = deep_update d u.
Proof.
  induction v as [a|items IH] using cfg_nested_ind; [discriminate|].
  intros Hdk u E. injection E as <-.
  apply distinct_keys_dict in Hdk. destruct Hdk as [Hnd Hall].
  rewrite List.Forall_forall in IH, Hall.
  assert (Hself : forall k v, In (k, v) items -> merged (Some v) v = v).
  { intros k v Hin. destruct v as [a|vi]; [reflexivity|].
    cbn [merged].
    destruct (IH (k, CDict vi) Hin (Hall _ Hin) vi eq_refl) as [H _].
    rewrite H. reflexivity. }
  split.
  - apply deep_update_in_place. intros k v Hin. exists v.
    split; [apply (od_get_In _ _ _ Hnd Hin) | apply (Hself k v Hin)].
  - intros d. apply deep_update_in_place. intros k v Hin.
    exists (merged (od_get d k) v).
    split; [apply (deep_update_key d items k v Hnd Hin)|].
    destruct v as [a|vi]; [reflexivity|].
    destruct (IH (k, CDict vi) Hin (Hall _ Hin) vi eq_refl) as [Hs Hi].
    destruct (od_get d k) as [[b|dk]|]; cbn [merged].
    + rewrite Hs. reflexivity.
    + rewrite Hi. reflexivity.
    + rewrite Hs. reflexivity.
Qed.

(** X26. With distinct keys in every [dict] of the override, merging the same
    override a second time changes nothing, and an override merged into
    itself is unchanged. *)
Theorem deep_update_idempotent {A} (d u : odict (cfg_value A)) :
  distinct_keys (CDict u) ->
  deep_update (deep_update d u) u = deep_update d u /\
  deep_update u u = u.
Proof.
  intros Hdk.
  destruct (deep_update_twice (CDict u) Hdk u eq_refl) as [Hs Hi].
  split; [apply Hi | exact Hs].
Qed.

Lemma deep_update_idempotent_witness :
  deep_update
    (deep_update [("a"%string, CLeaf 1%Z)]
       [("fin"%string, CDict [("rate"%string, CLeaf 4%Z)])])
    [("fin"%string, CDict [("rate"%string, CLeaf 4%Z)])]
  = deep_update [("a"%string, CLeaf 1%Z)]
      [("fin"%string, CDict [("rate"%string, CLeaf 4%Z)])].
Proof.
  apply (deep_update_idempotent [("a"%string, CLeaf 1%Z)]
           [("fin"%string, CDict [("rate"%string, CLeaf 4%Z)])]).
  cbn. repeat split; repeat constructor; intros [].
Defined.

(** ** Occupancy, capacity and the aggregator *)

Lemma nonneg_pricing_example : nonneg_pricing pricing_example.
Proof. unfold nonneg_pricing, pricing_example; cbn. repeat split; discriminate. Qed.

Lemma nonneg_season_example : nonneg_season season_example.
Proof.
  unfold nonneg_season, season_example; cbn. split; [lia|]. split.
  - intros k v H. apply lookup_singleton_Some in H. destruct H as [_ <-].
    discriminate.
  - intros k p H. apply lookup_singleton_Some in H. destruct H as [_ <-].
    apply nonneg_pricing_example.
Qed.

Lemma total_revenue_nonneg_witness :
  0 <= total_revenue
         (simulate_annual_revenue inventory_example [season_example]).
Proof.
  apply total_revenue_nonneg.
  - constructor; [cbn; lia | constructor].
  - constructor; [apply nonneg_season_example | constructor].
Defined.

Lemma breakdown_lists_priced_room_types_witness :
  map fst (by_room_type (season_result inventory_example season_example))
  = List.filter (priced season_example) (map fst inventory_example).
Proof.
  apply (breakdown_lists_priced_room_types inventory_example season_example).
  constructor; [intros [] | constructor].
Defined.

Lemma per_season_keeps_order_witness :
  per_season
    (simulate_annual_revenue inventory_example
       [season_example; season_no_occupancy])
  = map (fun s => (season_name s, season_result inventory_example s))
      [season_example; season_no_occupancy].
Proof.
  apply per_season_keeps_order.
  constructor; [|constructor; [intros [] | constructor]].
  intros [H|[]]. discriminate H.
Defined.

(** Six rooms over 90 days at 85% are 459 occupied nights; at the blended
    rate 915/7 the season earns 419985/7, about 59998. *)
Example season_revenue_example :
  total_revenue (simulate_annual_revenue inventory_example [season_example])
  == 459 * (915 # 7).
Proof. vm_compute. reflexivity. Qed.

Lemma item_revenue_scale_occupancy (c : Q) (s : Season)
    (item : string * RoomType) :
  item_revenue (scale_season_occupancy c s) item == c * item_revenue s item.
Proof.
  unfold item_revenue, scale_season_occupancy. cbn [pricing occupancy days].
  destruct (pricing s !! fst item) as [p|]; [|ring].
  rewrite lookup_fmap.
  destruct (occupancy s !! fst item) as [v|]; cbn [fmap option_fmap
    option_map default]; unfold id; ring.
Qed.

(** X6. The aggregator takes occupancies as they are, without a cap at 1:
    multiplying every occupancy of every season by a constant, however
    large, multiplies the annual revenue by that constant. *)
Theorem revenue_linear_in_occupancy (room_types : odict RoomType)
    (seasons : list Season) (c : Q) :
  total_revenue
    (simulate_annual_revenue room_types
       (map (scale_season_occupancy c) seasons))
  == c * total_revenue (simulate_annual_revenue room_types seasons).
Proof.
  rewrite !total_revenue_sum, map_map, <- Qsum_map_scale.
  apply Qsum_map_ext. intros s _. rewrite <- Qsum_map_scale.
  apply Qsum_map_ext. intros item _. apply item_revenue_scale_occupancy.
Qed.

Lemma scenario_item_below_capacity (params : ScenarioFactors)
    (base : string * SeasonBase) (item : string * RoomType) :
  0 <= price_factor params -> nonneg_season_base (snd base) ->
  (0 <= rt_count (snd item))%Z ->
  item_revenue (scenario_season params base) item
  <= capacity_revenue (scenario_season params base) item.
Proof.
  destruct base as [name cfg]. intros Hf [Hd Hp] Hc.
  unfold item_revenue, capacity_revenue, scenario_season.
  cbn [pricing occupancy days snd] in *. rewrite !lookup_fmap.
  destruct (pricing_base cfg !! fst item) as [pb|] eqn:Ep;
    cbn [fmap option_fmap option_map]; [|lra].
  assert (Hn : 0 <= inject_Z (rt_count (snd item) * sb_days cfg)).
  { change 0 with (inject_Z 0). rewrite <- Zle_Qle. lia. }
  assert (Hr : 0 <= equivalent_nightly_rate
                      (scale_pricing (price_factor params) pb)).
  { rewrite rate_scale_pricing. apply Qmult_le_0_compat; [exact Hf|].
    apply nonneg_rate, (Hp _ _ Ep). }
  assert (Ho : default 0 (scale_occupancy (occ_factor params)
                            <$> occupancy_base cfg !! fst item) <= 1).
  { destruct (occupancy_base cfg !! fst item); cbn; [|lra].
    apply py_min_le_l. }
  set (n := inject_Z (rt_count (snd item) * sb_days cfg)) in *.
  set (o := default 0 (scale_occupancy (occ_factor params)
                         <$> occupancy_base cfg !! fst item)) in *.
  set (rt := equivalent_nightly_rate
               (scale_pricing (price_factor params) pb)) in *.
  assert (H1 : 0 <= n * rt) by (apply Qmult_le_0_compat; assumption).
  assert (H2 : 0 <= (n * rt) * (1 - o))
    by (apply Qmult_le_0_compat; lra).
  lra.
Qed.

(** X8. Because a scenario caps occupancy at 1, its annual revenue never
    exceeds the revenue of full occupancy at the scenario's prices, however
    large the occupancy factor: this for non-negative room counts, season
    lengths, base prices and shares, and a non-negative price factor. *)
Theorem scenario_revenue_at_most_capacity (room_types : odict RoomType)
    (seasons_base_config : odict SeasonBase) (params : ScenarioFactors) :
  0 <= price_factor params ->
  Forall (fun item => (0 <= rt_count (snd item))%Z) room_types ->
  Forall (fun base => nonneg_season_base (snd base)) seasons_base_config ->
  total_revenue
    (simulate_annual_revenue room_types
       (scenario_seasons params seasons_base_config))
  <= Qsum (map (fun s => Qsum (map (capacity_revenue s) room_types))
             (scenario_seasons params seasons_base_config)).
Proof.
  intros Hf Hrt Hcfg. rewrite total_revenue_sum. unfold scenario_seasons.
  rewrite List.Forall_forall in Hrt, Hcfg.
  induction seasons_base_config as [|base cfgs IH]; cbn [map].
  - rewrite Qsum_nil. lra.
  - rewrite !Qsum_cons.
    assert (Hhere :
      Qsum (map (item_revenue (scenario_season params base)) room_types)
      <= Qsum (map (capacity_revenue (scenario_season params base))
                 room_types)).
    { clear IH. induction room_types as [|item rts IHr]; cbn [map].
      - rewrite Qsum_nil. lra.
      - rewrite !Qsum_cons.
        pose proof (scenario_item_below_capacity params base item Hf
                      (Hcfg base (or_introl eq_refl))
                      (Hrt item (or_introl eq_refl))).
        assert (Qsum (map (item_revenue (scenario_season params base)) rts)
                <= Qsum (map (capacity_revenue
                                (scenario_season params base)) rts)).
        { apply IHr. intros x Hx. apply Hrt. right. exact Hx. }
        lra. }
    assert (Hrest :
      Qsum (map (fun s => Qsum (map (item_revenue s) room_types))
              (map (scenario_season params) cfgs))
      <= Qsum (map (fun s => Qsum (map (capacity_revenue s) room_types))
                 (map (scenario_season params) cfgs))).
    { apply IH. intros x Hx. apply Hcfg. right. exact Hx. }
    lra.
Qed.

Lemma scenario_revenue_at_most_capacity_witness :
  total_revenue
    (simulate_annual_revenue inventory_example
       (scenario_seasons optimistic [("Ete"%string, season_base_example)]))
  <= Qsum (map (fun s => Qsum (map (capacity_revenue s) inventory_example))
             (scenario_seasons optimistic
                [("Ete"%string, season_base_example)])).
Proof.
  apply scenario_revenue_at_most_capacity.
  - discriminate.
  - constructor; [cbn; lia | constructor].
  - constructor; [|constructor]. split.
    + cbn. lia.
    + intros k p H. cbn in H. apply lookup_singleton_Some in H.
      destruct H as [_ <-]. apply nonneg_pricing_example.
Defined.
